(** * lf: the expression parser of parse.go

    A shallow embedding of the abstract syntax tree, its stringifier and the
    recursive-descent parser [Parser.parseExpr] / [Parser.parse], together
    with the properties the specification states about them. *)

From Stdlib Require Import String Ascii List Bool Arith ZArith Lia.
Import ListNotations.
Open Scope string_scope.

(** ** Tokens *)

(** Modelled from the spec: the token categories (their declaration is in
    the scanner's source file, which is missing).  The constructors are the
    eight names parse.go uses, which are the eight categories of section
    3. *)
Inductive TokenType : Type :=
| TokenEOF
| TokenSemicolon
| TokenIdent
| TokenColon
| TokenLBraces
| TokenRBraces
| TokenPrefix
| TokenCommand.

Definition TokenType_eqb (a b : TokenType) : bool :=
  match a, b with
  | TokenEOF, TokenEOF | TokenSemicolon, TokenSemicolon
  | TokenIdent, TokenIdent | TokenColon, TokenColon
  | TokenLBraces, TokenLBraces | TokenRBraces, TokenRBraces
  | TokenPrefix, TokenPrefix | TokenCommand, TokenCommand => true
  | _, _ => false
  end.

(** Modelled from the spec: a token is a category and its literal text
    (section 3). *)
Record Token : Type := mkToken { ttyp : TokenType; ttext : string }.

(** ** The abstract syntax tree (parse.go, lines 37-91) *)

(** [Expr] is a Go interface; a value of that type may be the nil interface.
    The [expr] field of [MapExpr] and [CmdExpr] receives whatever
    [parseExpr] returned, nil included, hence [option Expr].  The elements of
    [ListExpr.exprs] are appended only after the nil test of the list loops,
    so they are nodes. *)
#[local] Unset Elimination Schemes.
Inductive Expr : Type :=
| SetExpr (opt val : string)
| MapExpr (keys : string) (expr : option Expr)
| CmdExpr (name : string) (expr : option Expr)
| CallExpr (name : string) (args : list string)
| ExecExpr (pref expr : string)
| ListExpr (exprs : list Expr).
#[local] Set Elimination Schemes.

(** What [fmt]'s verb [%s] prints for a [[]string]: the elements separated by
    one space, between square brackets. *)
Definition fmtStrings (args : list string) : string :=
  "[" ++ String.concat " " args ++ "]".

(** What [fmt]'s verb [%s] prints for a nil interface value. *)
Definition fmtNil : string := "%!s(<nil>)".

(** The [String] methods.  (The name [String] itself is the constructor of
    Rocq's strings.)  [ListExpr.String] is the loop of lines 83-91: the
    buffer starts as [":{{ "], grows by each element's text and ["; "], and is
    closed by ["}}"]. *)
Fixpoint Expr_String (e : Expr) : string :=
  match e with
  | SetExpr opt val => "set " ++ opt ++ " " ++ val
  | MapExpr keys expr =>
      "map " ++ keys ++ " " ++
      match expr with Some x => Expr_String x | None => fmtNil end
  | CmdExpr name expr =>
      "cmd " ++ name ++ " " ++
      match expr with Some x => Expr_String x | None => fmtNil end
  | CallExpr name args => name ++ " -- " ++ fmtStrings args
  | ExecExpr pref expr => pref ++ " " ++ expr
  | ListExpr exprs =>
      let buf := ":{{ " in
      let buf :=
        fold_left (fun buf expr => (buf ++ Expr_String expr) ++ "; ")
                  exprs buf in
      buf ++ "}}"
  end.

(** ** The scanner, as the parser sees it *)

(** Modelled from the spec: the [Scanner] type and its [scan] method
    (the scanner's source file is missing).  The parser reads the
    fields [typ], [tok] and [err] and calls [scan]; section 4.1 says that
    [scan] advances a one-token cursor and reports whether input remains,
    that end of input yields the end-of-input token after which nothing
    changes, and that a lexical inconsistency sets a sticky error and forces
    end of input.  A scanner is therefore a cursor over the tokens that are
    still to come ([pending]), the lexical error met where they stop
    ([failure], if any) and the text the end-of-input token carries
    ([eofTok]): every theorem below quantifies over all three. *)
Record Scanner : Type := mkScanner {
  typ : TokenType;
  tok : string;
  err : option string;
  pending : list Token;
  failure : option string;
  eofTok : string
}.

(** Modelled from the spec: [Scanner.scan] (section 4.1). *)
Definition scan (s : Scanner) : bool * Scanner :=
  match pending s with
  | t :: ts =>
      (true,
       {| typ := ttyp t; tok := ttext t; err := err s;
          pending := ts; failure := failure s; eofTok := eofTok s |})
  | [] =>
      (false,
       {| typ := TokenEOF; tok := eofTok s;
          err := match err s with Some e => Some e | None => failure s end;
          pending := []; failure := failure s; eofTok := eofTok s |})
  end.

(** Modelled from the spec: the scanner before its first [scan], over the
    tokens [toks] that end with the lexical error [fail] (if any). *)
Definition cursor (toks : list Token) (fail : option string)
    (eof : string) : Scanner :=
  {| typ := TokenEOF; tok := EmptyString; err := None;
     pending := toks; failure := fail; eofTok := eof |}.

(** White space, and the five prefix characters of section 4.1. *)
Definition isSpace (c : ascii) : bool :=
  (c =? " ")%char || (c =? "009")%char || (c =? "010")%char
  || (c =? "013")%char.

Definition isPrefix (c : ascii) : bool :=
  (c =? "$")%char || (c =? "!")%char || (c =? "&")%char || (c =? "/")%char
  || (c =? "?")%char.

(** The scanner's modes: between tokens, inside an identifier, just after
    a Prefix, inside raw command text, inside a [{{ }}] block. *)
Inductive Mode : Type :=
| Normal
| InIdent (acc : string)
| AfterPrefix
| InLine (acc : string)
| InBlock (acc : string).

Definition emit (t : Token) (r : list Token * option string)
  : list Token * option string :=
  (t :: fst r, snd r).

Definition snoc (acc : string) (c : ascii) : string :=
  acc ++ String c EmptyString.

Definition newline : string := String (ascii_of_nat 10) EmptyString.

Definition tSemicolon : Token := mkToken TokenSemicolon ";".
Definition tNewline : Token := mkToken TokenSemicolon newline.
Definition tColon : Token := mkToken TokenColon ":".
Definition tLBraces : Token := mkToken TokenLBraces "{{".
Definition tRBraces : Token := mkToken TokenRBraces "}}".
Definition tIdent (s : string) : Token := mkToken TokenIdent s.
Definition tPrefix (c : ascii) : Token :=
  mkToken TokenPrefix (String c EmptyString).
Definition tCommand (s : string) : Token := mkToken TokenCommand s.

(** Modelled from the spec: the lexing rules of section 4.1, which turn the
    input text into the tokens a scanner delivers and the lexical error, if
    any, where they stop (the scanner's source file is missing).  [;], [{{],
    [}}] and [:] are the structural tokens; one of [$ ! & / ?] where a
    token starts is a Prefix; after a Prefix comes either [{{], the
    verbatim interior as one CommandText and [}}], or raw text up to an
    unescaped newline as one CommandText followed by a synthetic newline
    token (a Semicolon whose text is the newline); any other run of
    characters up to white space, [;] or a brace is an Identifier, so that
    [1:2:3] is one; white space separates.  An unterminated block or
    command text, or a lone brace, is the lexical error, and no token
    follows it. *)
Fixpoint lex (m : Mode) (input : string) : list Token * option string :=
  match m, input with
  | Normal, EmptyString => ([], None)
  | Normal, String c rest =>
      if isSpace c then lex Normal rest
      else if (c =? ";")%char then emit tSemicolon (lex Normal rest)
      else if (c =? ":")%char then emit tColon (lex Normal rest)
      else if (c =? "{")%char then
        match rest with
        | String "{" rest' => emit tLBraces (lex Normal rest')
        | _ => ([], Some "unexpected {")
        end
      else if (c =? "}")%char then
        match rest with
        | String "}" rest' => emit tRBraces (lex Normal rest')
        | _ => ([], Some "unexpected }")
        end
      else if isPrefix c then emit (tPrefix c) (lex AfterPrefix rest)
      else lex (InIdent (String c EmptyString)) rest
  | InIdent acc, EmptyString => ([tIdent acc], None)
  | InIdent acc, String c rest =>
      if isSpace c then emit (tIdent acc) (lex Normal rest)
      else if (c =? ";")%char then
        emit (tIdent acc) (emit tSemicolon (lex Normal rest))
      else if (c =? "{")%char then
        match rest with
        | String "{" rest' =>
            emit (tIdent acc) (emit tLBraces (lex Normal rest'))
        | _ => ([tIdent acc], Some "unexpected {")
        end
      else if (c =? "}")%char then
        match rest with
        | String "}" rest' =>
            emit (tIdent acc) (emit tRBraces (lex Normal rest'))
        | _ => ([tIdent acc], Some "unexpected }")
        end
      else lex (InIdent (snoc acc c)) rest
  | AfterPrefix, EmptyString => ([], Some "unterminated command")
  | AfterPrefix, String c rest =>
      if (c =? " ")%char || (c =? "009")%char then lex AfterPrefix rest
      else if (c =? "010")%char then
        emit (tCommand EmptyString) (emit tNewline (lex Normal rest))
      else if (c =? "{")%char then
        match rest with
        | String "{" rest' => emit tLBraces (lex (InBlock EmptyString) rest')
        | _ => lex (InLine (String c EmptyString)) rest
        end
      else lex (InLine (String c EmptyString)) rest
  | InLine acc, EmptyString => ([], Some "unterminated command")
  | InLine acc, String c rest =>
      if (c =? "010")%char then
        emit (tCommand acc) (emit tNewline (lex Normal rest))
      else if (c =? "\")%char then
        match rest with
        | String c' rest' => lex (InLine (snoc (snoc acc c) c')) rest'
        | EmptyString => ([], Some "unterminated command")
        end
      else lex (InLine (snoc acc c)) rest
  | InBlock acc, EmptyString => ([], Some "unterminated block")
  | InBlock acc, String c rest =>
      if (c =? "}")%char then
        match rest with
        | String "}" rest' =>
            emit (tCommand acc) (emit tRBraces (lex Normal rest'))
        | _ => lex (InBlock (snoc acc c)) rest
        end
      else lex (InBlock (snoc acc c)) rest
  end.

(** Modelled from the spec: [newScanner] on the text [r]; [eof] is the text
    of the end-of-input token, which the specification leaves open. *)
Definition newScanner (eof : string) (r : string) : Scanner :=
  let (toks, fail) := lex Normal r in cursor toks fail eof.

(** ** The parser (parse.go, lines 93-243) *)

(** [Parser.err] is [perr] here: [err] is the scanner's field. *)
Record Parser : Type := mkParser {
  scanner : Scanner;
  expr : option Expr;
  perr : option string
}.

(** [newParser], given the scanner [newScanner] made: one [scan], so that
    the first token is current. *)
Definition newParser (scanner : Scanner) : Parser :=
  let scanner := snd (scan scanner) in
  {| scanner := scanner; expr := None; perr := None |}.

(** [s.scan()] on the parser's scanner, result dropped. *)
Definition advance (p : Parser) : Parser :=
  {| scanner := snd (scan (scanner p)); expr := expr p; perr := perr p |}.

(** [p.err = fmt.Errorf("parsing: %s", s.err)]. *)
Definition setErr (p : Parser) (e : string) : Parser :=
  {| scanner := scanner p; expr := expr p; perr := Some ("parsing: " ++ e) |}.

(** A result of [parseExpr]: the returned interface value and the parser
    afterwards. *)
Definition Res : Type := (option Expr * Parser)%type.

(** The loop of lines 157-159:
    [for s.scan() && s.typ != TokenSemicolon { args = append(args, s.tok) }].
    [None] means the fuel ran out. *)
Fixpoint scanArgs (fuel : nat) (args : list string) (s : Scanner)
  : option (list string * Scanner) :=
  match fuel with
  | O => None
  | S n =>
      let (more, s1) := scan s in
      if more && negb (TokenType_eqb (typ s1) TokenSemicolon)
      then scanArgs n (args ++ [tok s1])%list s1
      else Some (args, s1)
  end.

(** The two loops of the list form (lines 176-185 and 188-197).  [pe] is the
    recursive call, [stop] the test that leaves the loop.  The outer [None]
    means the fuel ran out; [Some (None, p)] is the [return nil] of lines 179
    and 191. *)
Fixpoint listLoop (pe : Parser -> option Res) (stop : Scanner -> bool)
    (fuel : nat) (exprs : list Expr) (p : Parser)
  : option (option (list Expr) * Parser) :=
  match fuel with
  | O => None
  | S n =>
      match pe p with
      | None => None
      | Some (None, p1) => Some (None, p1)
      | Some (Some e, p1) =>
          let exprs := (exprs ++ [e])%list in
          if stop (scanner p1) then Some (Some exprs, p1)
          else listLoop pe stop n exprs p1
      end
  end.

(** [s.typ == TokenRBraces] and [s.tok == "\n"]. *)
Definition atRBraces (s : Scanner) : bool := TokenType_eqb (typ s) TokenRBraces.

Definition atNewline (s : Scanner) : bool := String.eqb (tok s) newline.

(** [Parser.parseExpr], lines 109-235, with a fuel for the recursion and the
    loops.  The call of [log.Println] at line 232 writes to the process's
    logger and changes neither the parser nor the result. *)
Fixpoint parseExpr_fuel (fuel : nat) (p : Parser) : option Res :=
  match fuel with
  | O => None
  | S n =>
      let s := scanner p in
      match typ s with
      | TokenEOF => Some (None, p)
      | TokenSemicolon => Some (None, advance p)
      | TokenIdent =>
          if String.eqb (tok s) "set" then
            let p := advance p in
            let opt := tok (scanner p) in
            let p := advance p in
            let (val, p) :=
              if negb (TokenType_eqb (typ (scanner p)) TokenSemicolon)
              then (tok (scanner p), advance p)
              else (EmptyString, p) in
            let p := advance p in
            Some (Some (SetExpr opt val), p)
          else if String.eqb (tok s) "map" then
            let p := advance p in
            let keys := tok (scanner p) in
            let p := advance p in
            match parseExpr_fuel n p with
            | None => None
            | Some (expr, p) => Some (Some (MapExpr keys expr), p)
            end
          else if String.eqb (tok s) "cmd" then
            let p := advance p in
            let name := tok (scanner p) in
            let p := advance p in
            match parseExpr_fuel n p with
            | None => None
            | Some (expr, p) => Some (Some (CmdExpr name expr), p)
            end
          else
            let name := tok s in
            match scanArgs n [] s with
            | None => None
            | Some (args, s1) =>
                let p :=
                  {| scanner := s1; expr := expr p; perr := perr p |} in
                let p := advance p in
                match err (scanner p) with
                | Some e => Some (None, setErr p e)
                | None => Some (Some (CallExpr name args), p)
                end
            end
      | TokenColon =>
          let p := advance p in
          let looped :=
            if TokenType_eqb (typ (scanner p)) TokenLBraces then
              let p := advance p in
              match listLoop (parseExpr_fuel n) atRBraces n [] p with
              | None => None
              | Some (None, p) => Some (None, p)
              | Some (Some exprs, p) => Some (Some exprs, advance p)
              end
            else
              listLoop (parseExpr_fuel n) atNewline n [] p in
          match looped with
          | None => None
          | Some (None, p) => Some (None, p)
          | Some (Some exprs, p) =>
              let p := advance p in
              Some (Some (ListExpr exprs), p)
          end
      | TokenPrefix =>
          let pref := tok s in
          let p := advance p in
          let (expr, p) :=
            if TokenType_eqb (typ (scanner p)) TokenLBraces then
              let p := advance p in
              let expr := tok (scanner p) in
              (expr, advance p)
            else if TokenType_eqb (typ (scanner p)) TokenCommand then
              (tok (scanner p), p)
            else (EmptyString, p) in
          let p := advance p in
          let p := advance p in
          match err (scanner p) with
          | Some e => Some (None, setErr p e)
          | None => Some (Some (ExecExpr pref expr), p)
          end
      | _ => Some (None, p)
      end
  end.

(** The number of tokens a scanner still has to give, the current one
    included. *)
Definition size (s : Scanner) : nat :=
  match typ s with
  | TokenEOF => length (pending s)
  | _ => S (length (pending s))
  end.

(** [Parser.parseExpr]: the fuel is one more than the tokens left, which is
    always enough ([parseExpr_fuel_enough] below). *)
Definition parseExpr (p : Parser) : Res :=
  match parseExpr_fuel (S (size (scanner p))) p with
  | Some r => r
  | None => (None, p)
  end.

(** [Parser.parse], lines 237-243. *)
Definition parse (p : Parser) : bool * Parser :=
  let (e, p) := parseExpr p in
  let p := {| scanner := scanner p; expr := e; perr := perr p |} in
  match e with
  | None => (false, p)
  | Some _ => (true, p)
  end.

(** ** Structural induction on expressions *)

Section ExprInd.
Variable P : Expr -> Prop.
Hypothesis HSet : forall opt val, P (SetExpr opt val).
Hypothesis HMapNil : forall keys, P (MapExpr keys None).
Hypothesis HMap : forall keys e, P e -> P (MapExpr keys (Some e)).
Hypothesis HCmdNil : forall name, P (CmdExpr name None).
Hypothesis HCmd : forall name e, P e -> P (CmdExpr name (Some e)).
Hypothesis HCall : forall name args, P (CallExpr name args).
Hypothesis HExec : forall pref text, P (ExecExpr pref text).
Hypothesis HList : forall es, Forall P es -> P (ListExpr es).

Fixpoint Expr_ind (e : Expr) : P e :=
  match e with
  | SetExpr opt val => HSet opt val
  | MapExpr keys None => HMapNil keys
  | MapExpr keys (Some x) => HMap keys x (Expr_ind x)
  | CmdExpr name None => HCmdNil name
  | CmdExpr name (Some x) => HCmd name x (Expr_ind x)
  | CallExpr name args => HCall name args
  | ExecExpr pref text => HExec pref text
  | ListExpr es =>
      HList es
        ((fix all (l : list Expr) : Forall P l :=
            match l with
            | [] => Forall_nil P
            | x :: l' => Forall_cons x (Expr_ind x) (all l')
            end) es)
  end.
End ExprInd.

(** ** Notions the statements use *)

(** [pe] answers on every parser with fewer than [k] tokens left, never
    gives tokens back, and consumes at least one when it returns a node. *)
Definition Progress (pe : Parser -> option Res) (k : nat) : Prop :=
  forall p, size (scanner p) < k ->
  exists r p', pe p = Some (r, p')
               /\ size (scanner p') <= size (scanner p)
               /\ (r <> None -> size (scanner p') < size (scanner p)).

(** An identifier that is no keyword. *)
Definition isKeyword (s : string) : bool :=
  (s =? "set") || (s =? "map") || (s =? "cmd").

(** One run of a list loop, told with [parseExpr] itself: from the parser
    [p] the successive calls return the nodes [es], each call starting
    where the one before stopped.  The run ends [true] at the first node
    after which [stop] holds, or [false] at the first call that returns
    nil. *)
Inductive LoopRun (stop : Scanner -> bool)
  : Parser -> list Expr -> Parser -> bool -> Prop :=
| run_last p e p1 :
    parseExpr p = (Some e, p1) -> stop (scanner p1) = true ->
    LoopRun stop p [e] p1 true
| run_more p e p1 es p2 b :
    parseExpr p = (Some e, p1) -> stop (scanner p1) = false ->
    LoopRun stop p1 es p2 b ->
    LoopRun stop p (e :: es) p2 b
| run_nil p p1 :
    parseExpr p = (None, p1) ->
    LoopRun stop p [] p1 false.

(** Where the loop of a list form starts, what stops it, and the scans that
    follow it (lines 174-200). *)
Definition isBraceForm (p : Parser) : bool :=
  TokenType_eqb (typ (scanner (advance p))) TokenLBraces.

Definition listStart (p : Parser) : Parser :=
  if isBraceForm p then advance (advance p) else advance p.

Definition listStop (p : Parser) : Scanner -> bool :=
  if isBraceForm p then atRBraces else atNewline.

Definition listEnd (p q : Parser) : Parser :=
  if isBraceForm p then advance (advance q) else advance q.

(** The scanner [s] moved onto the tokens [ts]: the first of them is the
    current token, the others are pending. *)
Definition seek (s : Scanner) (ts : list Token) : Scanner :=
  snd (scan {| typ := typ s; tok := tok s; err := err s;
               pending := ts; failure := failure s; eofTok := eofTok s |}).

Definition moveTo (p : Parser) (ts : list Token) : Parser :=
  {| scanner := seek (scanner p) ts; expr := expr p; perr := perr p |}.

Definition notSemicolon (t : Token) : Prop := ttyp t <> TokenSemicolon.

(** The texts of a list's elements, each followed by ["; "], one after the
    other. *)
Definition listBody (es : list Expr) : string :=
  fold_right String.append EmptyString
    (map (fun e => Expr_String e ++ "; ") es).

(** The productions that scan several tokens and then look at the scanner's
    error: a call (an identifier that is no keyword) and an exec form. *)
Definition isCallOrExec (p : Parser) : bool :=
  match typ (scanner p) with
  | TokenIdent => negb (isKeyword (tok (scanner p)))
  | TokenPrefix => true
  | _ => false
  end.

(** ** The expressions whose text parses back *)

(** The strings the lexing rules read as one Identifier: a first character
    that is no white space, no structural character and no prefix, then
    characters that are no white space, no [;] and no brace. *)
Definition isIdentChar (c : ascii) : bool :=
  negb (isSpace c || (c =? ";")%char || (c =? "{")%char || (c =? "}")%char).

Definition isIdentStart (c : ascii) : bool :=
  isIdentChar c && negb ((c =? ":")%char || isPrefix c).

Fixpoint allIdentChars (s : string) : bool :=
  match s with
  | EmptyString => true
  | String c s' => isIdentChar c && allIdentChars s'
  end.

Definition isIdent (s : string) : bool :=
  match s with
  | EmptyString => false
  | String c s' => isIdentStart c && allIdentChars s'
  end.

(** The expressions whose [String] text parses back: [set] with an option
    and a value, [map] and [cmd] with a body, lists that are not empty, all
    names being identifiers. *)
Fixpoint reparsable (e : Expr) : bool :=
  match e with
  | SetExpr opt val => isIdent opt && isIdent val
  | MapExpr keys (Some x) => isIdent keys && reparsable x
  | CmdExpr name (Some x) => isIdent name && reparsable x
  | ListExpr exprs =>
      match exprs with [] => false | _ => forallb reparsable exprs end
  | _ => false
  end.

(** The tokens of the [String] text of such an expression. *)
Fixpoint toks (e : Expr) : list Token :=
  match e with
  | SetExpr opt val => [tIdent "set"; tIdent opt; tIdent val]
  | MapExpr keys (Some x) => tIdent "map" :: tIdent keys :: toks x
  | CmdExpr name (Some x) => tIdent "cmd" :: tIdent name :: toks x
  | ListExpr exprs =>
      tColon :: tLBraces
      :: (flat_map (fun x => toks x ++ [tSemicolon]) exprs ++ [tRBraces])
  | _ => []
  end%list.

Definition emits (ts : list Token) (r : list Token * option string)
  : list Token * option string :=
  ((ts ++ fst r)%list, snd r).

(** What may follow an identifier: nothing, white space or [;]. *)
Definition delimited (k : string) : bool :=
  match k with
  | EmptyString => true
  | String c _ => isSpace c || (c =? ";")%char
  end.

(** ** The published grammar, and the expressions that print and parse back *)

(** The grammar of the specification (section 6), read on tokens, with the
    tree each sentence stands for.  A keyword is an Identifier with that
    text; [<opt>], [<val>], [<keys>], [<name>] and [<args>] are
    Identifiers, the name of a call being no keyword (the parser tries the
    keywords first); [<text>] is a CommandText; the newline that ends a
    line form is a token whose text is the newline.  A brace list holds one
    expression or more ([DerivesSeq]). *)
Definition isWord (s : string) (t : Token) : Prop :=
  ttyp t = TokenIdent /\ ttext t = s.

Definition isName (t : Token) : Prop := ttyp t = TokenIdent.

Definition isLineEnd (t : Token) : Prop := ttext t = newline.

Inductive Derives : list Token -> Expr -> Prop :=
| D_set kw o semi :
    isWord "set" kw -> isName o -> ttyp semi = TokenSemicolon ->
    Derives [kw; o; semi] (SetExpr (ttext o) EmptyString)
| D_set_val kw o v semi :
    isWord "set" kw -> isName o -> isName v -> ttyp semi = TokenSemicolon ->
    Derives [kw; o; v; semi] (SetExpr (ttext o) (ttext v))
| D_map kw k ts e :
    isWord "map" kw -> isName k -> Derives ts e ->
    Derives (kw :: k :: ts) (MapExpr (ttext k) (Some e))
| D_cmd kw k ts e :
    isWord "cmd" kw -> isName k -> Derives ts e ->
    Derives (kw :: k :: ts) (CmdExpr (ttext k) (Some e))
| D_call name args semi :
    isName name -> isKeyword (ttext name) = false ->
    Forall isName args -> ttyp semi = TokenSemicolon ->
    Derives (name :: args ++ [semi]) (CallExpr (ttext name) (map ttext args))
| D_exec_line pfx text nl :
    ttyp pfx = TokenPrefix -> ttyp text = TokenCommand -> isLineEnd nl ->
    Derives [pfx; text; nl] (ExecExpr (ttext pfx) (ttext text))
| D_exec_block pfx lb text rb semi :
    ttyp pfx = TokenPrefix -> ttyp lb = TokenLBraces ->
    ttyp text = TokenCommand -> ttyp rb = TokenRBraces ->
    ttyp semi = TokenSemicolon ->
    Derives [pfx; lb; text; rb; semi] (ExecExpr (ttext pfx) (ttext text))
| D_list_line colon ts e nl :
    ttyp colon = TokenColon -> Derives ts e -> isLineEnd nl ->
    Derives (colon :: ts ++ [nl]) (ListExpr [e])
| D_list_block colon lb ts es rb semi :
    ttyp colon = TokenColon -> ttyp lb = TokenLBraces ->
    DerivesSeq ts es ->
    ttyp rb = TokenRBraces -> ttyp semi = TokenSemicolon ->
    Derives (colon :: lb :: ts ++ [rb; semi]) (ListExpr es)
with DerivesSeq : list Token -> list Expr -> Prop :=
| DS_one ts e : Derives ts e -> DerivesSeq ts [e]
| DS_cons ts e tss es :
    Derives ts e -> DerivesSeq tss es -> DerivesSeq (ts ++ tss) (e :: es).

Scheme Derives_both := Minimality for Derives Sort Prop
  with DerivesSeq_both := Minimality for DerivesSeq Sort Prop.

(** A scanner that holds no lexical error and will meet none. *)
Definition clean (s : Scanner) : Prop := err s = None /\ failure s = None.

(** The expressions whose [String] text parses back to them: [set], [map]
    and [cmd] with a body, lists that are not empty, all names being
    identifiers.  A [set] without a value prints as its option followed by
    a space, and the parser takes the next token for the value unless it
    is a Semicolon: [semi] tells that a Semicolon follows the text, as it
    does after every element of a list, or that the input ends there with
    an end-of-input token whose text is empty. *)
Fixpoint roundTrips (semi : bool) (e : Expr) : bool :=
  match e with
  | SetExpr opt val =>
      isIdent opt && (isIdent val || (semi && (val =? EmptyString)))
  | MapExpr keys (Some x) => isIdent keys && roundTrips semi x
  | CmdExpr name (Some x) => isIdent name && roundTrips semi x
  | ListExpr exprs =>
      match exprs with
      | [] => false
      | _ => forallb (roundTrips true) exprs
      end
  | _ => false
  end.

(** The tokens of the [String] text of such an expression. *)
Fixpoint words (e : Expr) : list Token :=
  match e with
  | SetExpr opt val =>
      tIdent "set" :: tIdent opt
      :: (if val =? EmptyString then [] else [tIdent val])
  | MapExpr keys (Some x) => tIdent "map" :: tIdent keys :: words x
  | CmdExpr name (Some x) => tIdent "cmd" :: tIdent name :: words x
  | ListExpr exprs =>
      tColon :: tLBraces
      :: (flat_map (fun x => words x ++ [tSemicolon]) exprs ++ [tRBraces])
  | _ => []
  end%list.

(** What follows an expression is as [semi] tells. *)
Definition closes (semi : bool) (s : Scanner) (K : list Token) : Prop :=
  semi = true ->
  match K with
  | [] => eofTok s = EmptyString
  | t :: _ => ttyp t = TokenSemicolon
  end.

(** The shape alone: no call, no exec form, no nil body, and a [set]
    without a value only where [semi] allows it. *)
Fixpoint plain (semi : bool) (e : Expr) : bool :=
  match e with
  | SetExpr _ val => semi || negb (val =? EmptyString)
  | MapExpr _ (Some x) | CmdExpr _ (Some x) => plain semi x
  | ListExpr exprs => forallb (plain true) exprs
  | _ => false
  end.

(** The text of an Identifier token reads as one identifier. *)
Definition identOK (t : Token) : Prop :=
  ttyp t = TokenIdent -> isIdent (ttext t) = true.

Definition modeOK (m : Mode) : Prop :=
  match m with InIdent acc => isIdent acc = true | _ => True end.

(** ** Notions the further properties use *)

(** A run of a list loop in which every call satisfies [Q]: [LoopRun]
    with [Q] at each call. *)
Inductive RunAll (Q : Parser -> Res -> Prop) (stop : Scanner -> bool)
  : Parser -> list Expr -> Parser -> bool -> Prop :=
| all_last p e p1 :
    parseExpr p = (Some e, p1) -> Q p (Some e, p1) ->
    stop (scanner p1) = true ->
    RunAll Q stop p [e] p1 true
| all_more p e p1 es p2 b :
    parseExpr p = (Some e, p1) -> Q p (Some e, p1) ->
    stop (scanner p1) = false ->
    RunAll Q stop p1 es p2 b ->
    RunAll Q stop p (e :: es) p2 b
| all_nil p p1 :
    parseExpr p = (None, p1) -> Q p (None, p1) ->
    RunAll Q stop p [] p1 false.


(** [p'] comes after [p]: [p.expr] is the same, the scanner's error is kept
    once it is set, a scanner that holds and will meet no lexical error
    stays so, and [p.err] is the same or is the scanner's error behind
    ["parsing: "]. *)
Definition Follows (p p' : Parser) : Prop :=
  expr p' = expr p
  /\ (forall e, err (scanner p) = Some e -> err (scanner p') = Some e)
  /\ (err (scanner p) = None -> failure (scanner p) = None ->
      err (scanner p') = None /\ failure (scanner p') = None)
  /\ (perr p' = perr p
      \/ exists e, err (scanner p') = Some e
                   /\ perr p' = Some ("parsing: " ++ e)).


(** No list without elements anywhere in the tree. *)
Fixpoint listsNonEmpty (e : Expr) : bool :=
  match e with
  | MapExpr _ (Some x) | CmdExpr _ (Some x) => listsNonEmpty x
  | ListExpr exprs =>
      match exprs with [] => false | _ => forallb listsNonEmpty exprs end
  | _ => true
  end.

(** The node [e] is of the variant the current token of [p] calls for, and
    carries that token's text where the production takes it. *)
Definition headedBy (p : Parser) (e : Expr) : Prop :=
  match typ (scanner p), e with
  | TokenIdent, SetExpr _ _ => tok (scanner p) = "set"
  | TokenIdent, MapExpr _ _ => tok (scanner p) = "map"
  | TokenIdent, CmdExpr _ _ => tok (scanner p) = "cmd"
  | TokenIdent, CallExpr name _ =>
      name = tok (scanner p) /\ isKeyword name = false
  | TokenColon, ListExpr _ => True
  | TokenPrefix, ExecExpr pref _ => pref = tok (scanner p)
  | _, _ => False
  end.

(** ** The helpers of the second source file *)

Module Util.

(** [min] and [max] (lines 90-102), on Go's [int]: the two functions only
    compare and return, so [Z] stands for [int] with nothing lost. *)
Definition min (a b : Z) : Z := if (a <? b)%Z then a else b.

Definition max (a b : Z) : Z := if (a >? b)%Z then a else b.

(** A rune is a code point; [utf8.RuneError] is U+FFFD. *)
Definition rune : Type := Z.

Definition RuneError : rune := 65533%Z.

(** A Go string the way [range], [len] and [utf8.DecodeRuneInString] see
    it: its runes in order, each with the number of bytes it takes (an
    invalid byte is [RuneError] on one byte).  [len] is the number of
    bytes. *)
Definition GoString : Type := list (rune * positive).

Definition len (s : GoString) : Z :=
  fold_right (fun x n => (Zpos (snd x) + n)%Z) 0%Z s.

(** A text of ASCII characters as a Go string: one byte each. *)
Definition ofAscii (s : string) : GoString :=
  map (fun c => (Z.of_nat (nat_of_ascii c), 1%positive))
      (list_ascii_of_string s).

(** The first rune, which is [RuneError] for the empty string. *)
Definition DecodeRuneInString (s : GoString) : rune :=
  match s with [] => RuneError | (c, _) :: _ => c end.

(** [strconv.Atoi] on a string given by its runes, with [int] on 64 bits:
    the value of a string of ASCII digits, the largest [int] when that
    value does not fit, and 0 (with an error, which line 75 only logs) for
    any other string. *)
Definition maxInt : Z := (2 ^ 63 - 1)%Z.

Definition isDecimal (r : rune) : bool := ((48 <=? r) && (r <=? 57))%Z.

Definition decimal (l : list rune) : Z :=
  fold_left (fun n r => (n * 10 + (r - 48))%Z) l 0%Z.

Definition Atoi (l : list rune) : Z :=
  if forallb isDecimal l then Z.min (decimal l) maxInt else 0%Z.

(** The variables of the loop of [extractNums]. *)
Record Acc : Type := mkAcc {
  buf : list rune;
  digit : bool;
  nums : list Z;
  rest : list (list rune)
}.

Section Digits.

(** The table of decimal digits of [unicode] beyond Latin-1, which is not
    part of the sources. *)
Variable Nd : rune -> bool.

(** [unicode.IsDigit]: up to U+00FF the ASCII digits, beyond it the
    table. *)
Definition IsDigit (r : rune) : bool :=
  if (r <=? 255)%Z then isDecimal r else Nd r.

(** The body of the loop of lines 63-85 at the byte index [i] and the rune
    [c], [n] being [len(s)]: the first branch is the [continue] of line
    67. *)
Definition body (n : Z) (a : Acc) (i : Z) (c : rune) : Acc :=
  let same := Bool.eqb (IsDigit c) (digit a) in
  let buf1 := if same then (buf a ++ [c])%list else buf a in
  if same && negb (i =? n - 1)%Z
  then {| buf := buf1; digit := digit a; nums := nums a; rest := rest a |}
  else
    let nums1 := if digit a then (nums a ++ [Atoi buf1])%list else nums a in
    let rest1 := if digit a then rest a else (rest a ++ [buf1])%list in
    {| buf := [c]; digit := negb (digit a); nums := nums1; rest := rest1 |}.

(** [for i, c := range s], from the byte index [i] on. *)
Fixpoint rangeLoop (n i : Z) (s : GoString) (a : Acc) : Acc :=
  match s with
  | [] => a
  | (c, w) :: s' => rangeLoop n (i + Zpos w)%Z s' (body n a i c)
  end.

(** [extractNums], lines 56-88. *)
Definition extractNums (s : GoString)
  : list Z * list (list rune) * bool :=
  let r := DecodeRuneInString s in
  let digit := IsDigit r in
  let numFirst := digit in
  let a := rangeLoop (len s) 0%Z s
             {| buf := []; digit := digit; nums := []; rest := [] |} in
  (nums a, rest a, numFirst).

(** The maximal runs of runes of one class (digit or not), each with its
    class. *)
Fixpoint runs (l : list rune) : list (bool * list rune) :=
  match l with
  | [] => []
  | c :: l' =>
      match runs l' with
      | (b, r) :: t =>
          if Bool.eqb (IsDigit c) b then (b, c :: r) :: t
          else (IsDigit c, [c]) :: (b, r) :: t
      | [] => [(IsDigit c, [c])]
      end
  end.

(** Whether the loop delivers its last partition: the last rune takes one
    byte and is of the class of the rune before it, if there is one. *)
Definition lastKept (s : GoString) : bool :=
  match rev s with
  | [] => true
  | (c, w) :: before =>
      (w =? 1)%positive
      && match before with
         | [] => true
         | (c', _) :: _ => Bool.eqb (IsDigit c) (IsDigit c')
         end
  end.

(** The partitions the loop delivers: all runs, or all but the last. *)
Definition kept (s : GoString) : list (bool * list rune) :=
  if lastKept s then runs (map fst s) else removelast (runs (map fst s)).

(** The numbers of the runs of digits, and the runs of other runes. *)
Definition numsOf (O : list (bool * list rune)) : list Z :=
  map (fun x => Atoi (snd x)) (filter (fun x => fst x) O).

Definition restOf (O : list (bool * list rune)) : list (list rune) :=
  map (fun x => snd x) (filter (fun x => negb (fst x)) O).

Definition nondigit (c : rune) : bool := negb (IsDigit c).

(** The body of the loop on a rune that does not hold the last byte. *)
Definition inner (a : Acc) (c : rune) : Acc :=
  if Bool.eqb (IsDigit c) (digit a)
  then {| buf := (buf a ++ [c])%list; digit := digit a;
          nums := nums a; rest := rest a |}
  else {| buf := [c]; digit := negb (digit a);
          nums := if digit a then (nums a ++ [Atoi (buf a)])%list
                  else nums a;
          rest := if digit a then rest a
                  else (rest a ++ [buf a])%list |}.

(** The runs of a list with one more rune at its end. *)
Fixpoint snocRun (O : list (bool * list rune)) (c : rune)
  : list (bool * list rune) :=
  match O with
  | [] => [(IsDigit c, [c])]
  | x :: O' =>
      match O' with
      | [] =>
          if Bool.eqb (IsDigit c) (fst x)
          then [(fst x, (snd x ++ [c])%list)]
          else [x; (IsDigit c, [c])]
      | _ :: _ => x :: snocRun O' c
      end
  end.

(** What the loop holds after the runes [P], none of them on the last
    byte: the partitions delivered and the one in the buffer are the runs
    of [P]. *)
Definition Held (P : list rune) (a : Acc) : Prop :=
  exists O,
    runs P = (O ++ [(digit a, buf a)])%list
    /\ nums a = numsOf O /\ rest a = restOf O.

(** The variables before the loop. *)
Definition start (s : GoString) : Acc :=
  {| buf := []; digit := IsDigit (DecodeRuneInString s);
     nums := []; rest := [] |}.

End Digits.
End Util.

(** ** Token categories *)

Lemma TokenType_eqb_spec (a b : TokenType) :
  reflect (a = b) (TokenType_eqb a b).
Proof. destruct a, b; constructor; congruence. Qed.

(** ** The scanner only moves forward *)

Lemma size_scan_le (s : Scanner) : size (snd (scan s)) <= size s.
Proof.
  unfold scan, size. destruct (pending s) as [|t ts]; simpl.
  - destruct (typ s); lia.
  - destruct (ttyp t), (typ s); lia.
Qed.

Lemma size_scan_lt (s : Scanner) :
  typ s <> TokenEOF -> size (snd (scan s)) < size s.
Proof.
  intros H. unfold scan, size. destruct (pending s) as [|t ts]; simpl.
  - destruct (typ s); try lia. congruence.
  - destruct (ttyp t), (typ s); try lia; congruence.
Qed.

Lemma size_advance_le (p : Parser) :
  size (scanner (advance p)) <= size (scanner p).
Proof. apply size_scan_le. Qed.

Lemma size_advance_lt (p : Parser) :
  typ (scanner p) <> TokenEOF ->
  size (scanner (advance p)) < size (scanner p).
Proof. apply size_scan_lt. Qed.

(** ** The loops end, and more fuel changes nothing *)

Lemma scanArgs_enough (n : nat) :
  forall args s, length (pending s) < n ->
  exists args' s', scanArgs n args s = Some (args', s')
                   /\ size s' <= size (snd (scan s)).
Proof.
  induction n as [|n IH]; intros args s Hn; [lia|].
  simpl. destruct (scan s) as [more s1] eqn:Es.
  assert (Hp : length (pending s1) < n \/ more = false).
  { unfold scan in Es. destruct (pending s) as [|t ts]; inversion Es; subst.
    - now right.
    - left. simpl in *. lia. }
  simpl. destruct (more && negb (TokenType_eqb (typ s1) TokenSemicolon)) eqn:Eb.
  - destruct Hp as [Hp|Hp]; [|subst more; discriminate].
    destruct (IH (args ++ [tok s1])%list s1 Hp) as (a & s' & E & Hs).
    exists a, s'. split; [exact E|].
    pose proof (size_scan_le s1). lia.
  - eexists _, _. split; [reflexivity|]. lia.
Qed.

Lemma scanArgs_mono (n : nat) :
  forall m args s r, scanArgs n args s = Some r -> n <= m ->
                     scanArgs m args s = Some r.
Proof.
  induction n as [|n IH]; intros m args s r H Hm; [discriminate|].
  destruct m as [|m]; [lia|]. simpl in *.
  destruct (scan s) as [more s1].
  destruct (more && negb (TokenType_eqb (typ s1) TokenSemicolon)).
  - apply IH; [exact H|lia].
  - exact H.
Qed.

Lemma listLoop_enough pe stop k (Hpe : Progress pe k) (m : nat) :
  forall exprs p, size (scanner p) < m -> size (scanner p) < k ->
  exists r p', listLoop pe stop m exprs p = Some (r, p')
               /\ size (scanner p') <= size (scanner p).
Proof.
  induction m as [|m IH]; intros exprs p Hm Hk; [lia|].
  simpl. destruct (Hpe p Hk) as (r & p1 & E & Hle & Hlt). rewrite E.
  destruct r as [e|].
  - assert (size (scanner p1) < size (scanner p)) by (apply Hlt; discriminate).
    destruct (stop (scanner p1)).
    + eexists _, _. split; [reflexivity|lia].
    + destruct (IH (exprs ++ [e])%list p1) as (r & p' & E' & Hs); try lia.
      exists r, p'. split; [exact E'|lia].
  - eexists _, _. split; [reflexivity|lia].
Qed.

Lemma listLoop_mono pe pe' stop
    (Hpe : forall p r, pe p = Some r -> pe' p = Some r) (n : nat) :
  forall m exprs p r, listLoop pe stop n exprs p = Some r -> n <= m ->
                      listLoop pe' stop m exprs p = Some r.
Proof.
  induction n as [|n IH]; intros m exprs p r H Hm; [discriminate|].
  destruct m as [|m]; [lia|]. simpl in *.
  destruct (pe p) as [[[e|] p1]|] eqn:E; try discriminate;
    rewrite (Hpe _ _ E); [|exact H].
  destruct (stop (scanner p1)); [exact H|].
  apply IH; [exact H|lia].
Qed.

#[local] Arguments advance : simpl never.
#[local] Arguments setErr : simpl never.

Ltac case_if :=
  match goal with
  | |- context [if ?b then _ else _] => destruct b eqn:?
  end.

Ltac size_fact q :=
  lazymatch goal with
  | _ : size (snd (scan q)) <= size q |- _ => fail
  | _ => pose proof (size_scan_le q)
  end.

Ltac sizes :=
  unfold advance in *; cbn [scanner] in *;
  repeat match goal with
    | |- context [scan ?q] => size_fact q
    | _ : context [scan ?q] |- _ => size_fact q
    end.

Lemma parseExpr_fuel_enough (n : nat) : Progress (parseExpr_fuel n) n.
Proof.
  induction n as [|n IH]; intros p Hn; [lia|].
  assert (Hadv : typ (scanner p) <> TokenEOF ->
                 size (scanner (advance p)) < size (scanner p))
    by apply size_advance_lt.
  simpl. destruct (typ (scanner p)) eqn:Ht.
  - eexists _, _. split; [reflexivity|]. split; [lia|]. intros H; now elim H.
  - eexists _, _. split; [reflexivity|]. split; [apply size_advance_le|].
    intros H; now elim H.
  - specialize (Hadv ltac:(discriminate)).
    destruct (tok (scanner p) =? "set").
    { match goal with
      | |- context [if ?b then _ else _] => destruct b
      end; (eexists _, _; split; [reflexivity|]); sizes; split; intros; lia. }
    destruct (tok (scanner p) =? "map").
    { destruct (IH (advance (advance p))) as (r & p' & E & Hle & _).
      { sizes. lia. }
      rewrite E. eexists _, _. split; [reflexivity|]. sizes.
      split; intros; lia. }
    destruct (tok (scanner p) =? "cmd").
    { destruct (IH (advance (advance p))) as (r & p' & E & Hle & _).
      { sizes. lia. }
      rewrite E. eexists _, _. split; [reflexivity|]. sizes.
      split; intros; lia. }
    destruct (scanArgs_enough n [] (scanner p)) as (a & s1 & E & Hs).
    { unfold size in Hn. rewrite Ht in Hn. lia. }
    rewrite E.
    set (p1 := {| scanner := s1; expr := expr p; perr := perr p |}).
    pose proof (size_advance_le p1) as H1. simpl in H1.
    unfold advance in Hadv. simpl in Hadv.
    destruct (err (snd (scan s1)));
      (eexists _, _; split; [reflexivity|]); simpl; split; intros; lia.
  - specialize (Hadv ltac:(discriminate)). case_if.
    + destruct (listLoop_enough _ atRBraces n IH n [] (advance (advance p)))
        as (r & p' & E & Hle).
      { sizes. lia. } { sizes. lia. }
      rewrite E. destruct r as [es|];
        (eexists _, _; split; [reflexivity|]); sizes; split; intros; lia.
    + destruct (listLoop_enough _ atNewline n IH n [] (advance p))
        as (r & p' & E & Hle); try lia.
      rewrite E. destruct r as [es|];
        (eexists _, _; split; [reflexivity|]); sizes; split; intros; lia.
  - eexists _, _. split; [reflexivity|]. split; [lia|]. intros H; now elim H.
  - eexists _, _. split; [reflexivity|]. split; [lia|]. intros H; now elim H.
  - specialize (Hadv ltac:(discriminate)).
    repeat case_if;
      match goal with
      | |- context [match ?x with Some _ => _ | None => _ end] => destruct x
      end;
      (eexists _, _; split; [reflexivity|]); simpl; sizes;
      split; intros; lia.
  - eexists _, _. split; [reflexivity|]. split; [lia|]. intros H; now elim H.
Qed.

Lemma parseExpr_fuel_mono (n : nat) :
  forall m p r, parseExpr_fuel n p = Some r -> n <= m ->
                parseExpr_fuel m p = Some r.
Proof.
  induction n as [|n IH]; intros m p r H Hm; [discriminate|].
  destruct m as [|m]; [lia|].
  assert (IH' : forall q x, parseExpr_fuel n q = Some x ->
                            parseExpr_fuel m q = Some x)
    by (intros; apply IH; [assumption|lia]).
  simpl in *. destruct (typ (scanner p)); try exact H.
  - destruct (tok (scanner p) =? "set"); [exact H|].
    destruct (tok (scanner p) =? "map").
    { destruct (parseExpr_fuel n _) as [[e q]|] eqn:E; [|discriminate].
      now rewrite (IH' _ _ E). }
    destruct (tok (scanner p) =? "cmd").
    { destruct (parseExpr_fuel n _) as [[e q]|] eqn:E; [|discriminate].
      now rewrite (IH' _ _ E). }
    destruct (scanArgs n [] (scanner p)) as [[a s1]|] eqn:E; [|discriminate].
    rewrite (scanArgs_mono _ m _ _ _ E ltac:(lia)). exact H.
  - case_if.
    + destruct (listLoop (parseExpr_fuel n) atRBraces n [] _) as [x|] eqn:E;
        [|discriminate].
      rewrite (listLoop_mono _ _ _ IH' n m _ _ _ E ltac:(lia)). exact H.
    + destruct (listLoop (parseExpr_fuel n) atNewline n [] _) as [x|] eqn:E;
        [|discriminate].
      rewrite (listLoop_mono _ _ _ IH' n m _ _ _ E ltac:(lia)). exact H.
Qed.

(** [parseExpr] is [parseExpr_fuel] at any fuel that exceeds the tokens
    left. *)
Lemma parseExpr_fuel_eq (n : nat) (p : Parser) :
  size (scanner p) < n -> parseExpr_fuel n p = Some (parseExpr p).
Proof.
  intros Hn. unfold parseExpr.
  destruct (parseExpr_fuel_enough (S (size (scanner p))) p)
    as (r & p' & E & _); [lia|].
  rewrite E. apply (parseExpr_fuel_mono _ n _ _ E). lia.
Qed.

Lemma parseExpr_progress (p : Parser) :
  size (scanner (snd (parseExpr p))) <= size (scanner p)
  /\ (fst (parseExpr p) <> None ->
      size (scanner (snd (parseExpr p))) < size (scanner p)).
Proof.
  destruct (parseExpr_fuel_enough (S (size (scanner p))) p)
    as (r & p' & E & H); [lia|].
  rewrite parseExpr_fuel_eq in E by lia. inversion E as [E'].
  rewrite E'. exact H.
Qed.

(** ** The equations of [parseExpr], case by case *)

Lemma parseExpr_unfold (p : Parser) :
  Some (parseExpr p) = parseExpr_fuel (S (size (scanner p))) p.
Proof. symmetry. apply parseExpr_fuel_eq. lia. Qed.

Lemma parseExpr_EOF (p : Parser) :
  typ (scanner p) = TokenEOF -> parseExpr p = (None, p).
Proof.
  intros Ht. pose proof (parseExpr_unfold p) as E.
  simpl in E. rewrite Ht in E. now inversion E.
Qed.

Lemma parseExpr_Semicolon (p : Parser) :
  typ (scanner p) = TokenSemicolon -> parseExpr p = (None, advance p).
Proof.
  intros Ht. pose proof (parseExpr_unfold p) as E.
  simpl in E. rewrite Ht in E. now inversion E.
Qed.

Lemma parseExpr_other (p : Parser) :
  typ (scanner p) = TokenLBraces \/ typ (scanner p) = TokenRBraces
  \/ typ (scanner p) = TokenCommand ->
  parseExpr p = (None, p).
Proof.
  intros Ht. pose proof (parseExpr_unfold p) as E.
  simpl in E. destruct Ht as [Ht|[Ht|Ht]]; rewrite Ht in E; now inversion E.
Qed.

Lemma parseExpr_set (p : Parser) :
  typ (scanner p) = TokenIdent -> tok (scanner p) = "set" ->
  parseExpr p =
    let p1 := advance p in
    let p2 := advance p1 in
    if TokenType_eqb (typ (scanner p2)) TokenSemicolon
    then (Some (SetExpr (tok (scanner p1)) EmptyString), advance p2)
    else (Some (SetExpr (tok (scanner p1)) (tok (scanner p2))),
          advance (advance p2)).
Proof.
  intros Ht Hk. pose proof (parseExpr_unfold p) as E.
  simpl in E. rewrite Ht, Hk in E. simpl in E. cbv zeta.
  destruct (TokenType_eqb (typ (scanner (advance (advance p)))) TokenSemicolon)
    eqn:Hs; unfold advance in Hs; simpl in Hs; rewrite Hs in E; simpl in E;
    now inversion E.
Qed.

(** The bodies of [map] and [cmd] are whatever the recursive call returns. *)
Lemma parseExpr_map (p : Parser) :
  typ (scanner p) = TokenIdent -> tok (scanner p) = "map" ->
  parseExpr p =
    let p1 := advance p in
    let (e, p') := parseExpr (advance p1) in
    (Some (MapExpr (tok (scanner p1)) e), p').
Proof.
  intros Ht Hk. pose proof (parseExpr_unfold p) as E.
  simpl in E. rewrite Ht, Hk in E. simpl in E.
  rewrite parseExpr_fuel_eq in E.
  - cbv zeta. destruct (parseExpr (advance (advance p))). now inversion E.
  - pose proof (size_advance_lt p ltac:(rewrite Ht; discriminate)).
    pose proof (size_advance_le (advance p)). lia.
Qed.

Lemma parseExpr_cmd (p : Parser) :
  typ (scanner p) = TokenIdent -> tok (scanner p) = "cmd" ->
  parseExpr p =
    let p1 := advance p in
    let (e, p') := parseExpr (advance p1) in
    (Some (CmdExpr (tok (scanner p1)) e), p').
Proof.
  intros Ht Hk. pose proof (parseExpr_unfold p) as E.
  simpl in E. rewrite Ht, Hk in E. simpl in E.
  rewrite parseExpr_fuel_eq in E.
  - cbv zeta. destruct (parseExpr (advance (advance p))). now inversion E.
  - pose proof (size_advance_lt p ltac:(rewrite Ht; discriminate)).
    pose proof (size_advance_le (advance p)). lia.
Qed.

Lemma parseExpr_call (p : Parser) :
  typ (scanner p) = TokenIdent -> isKeyword (tok (scanner p)) = false ->
  exists args s1,
    scanArgs (size (scanner p)) [] (scanner p) = Some (args, s1)
    /\ parseExpr p =
       let p1 := advance {| scanner := s1; expr := expr p; perr := perr p |} in
       match err (scanner p1) with
       | Some e => (None, setErr p1 e)
       | None => (Some (CallExpr (tok (scanner p)) args), p1)
       end.
Proof.
  intros Ht Hk. pose proof (parseExpr_unfold p) as E.
  unfold isKeyword in Hk. apply orb_false_elim in Hk as [Hk Hc].
  apply orb_false_elim in Hk as [Hs Hm].
  simpl in E. rewrite Ht, Hs, Hm, Hc in E.
  destruct (scanArgs (size (scanner p)) [] (scanner p)) as [[args s1]|] eqn:Ea;
    [|discriminate].
  exists args, s1. split; [reflexivity|]. cbv zeta.
  match type of E with
  | _ = match ?x with _ => _ end => change x with
      (err (scanner (advance {| scanner := s1; expr := expr p;
                                perr := perr p |}))) in E
  end.
  destruct (err (scanner (advance _))); now inversion E.
Qed.

Lemma parseExpr_prefix (p : Parser) :
  typ (scanner p) = TokenPrefix ->
  parseExpr p =
    let p1 := advance p in
    let '(text, p2) :=
      if TokenType_eqb (typ (scanner p1)) TokenLBraces
      then (tok (scanner (advance p1)), advance (advance p1))
      else if TokenType_eqb (typ (scanner p1)) TokenCommand
           then (tok (scanner p1), p1)
           else (EmptyString, p1) in
    let p3 := advance (advance p2) in
    match err (scanner p3) with
    | Some e => (None, setErr p3 e)
    | None => (Some (ExecExpr (tok (scanner p)) text), p3)
    end.
Proof.
  intros Ht. pose proof (parseExpr_unfold p) as E.
  simpl in E. rewrite Ht in E. cbv zeta.
  change (snd (scan (scanner p))) with (scanner (advance p)) in E.
  destruct (TokenType_eqb (typ (scanner (advance p))) TokenLBraces);
    [|destruct (TokenType_eqb (typ (scanner (advance p))) TokenCommand)];
    match type of E with
    | _ = match err ?x with _ => _ end =>
        match goal with
        | |- _ = match err ?y with _ => _ end => change x with y in E
        end
    end;
    match goal with
    | |- _ = match ?x with _ => _ end => destruct x
    end; now inversion E.
Qed.

(** ** The list form *)

Lemma LoopRun_fun stop p es q b :
  LoopRun stop p es q b ->
  forall es' q' b', LoopRun stop p es' q' b' ->
                    es' = es /\ q' = q /\ b' = b.
Proof.
  induction 1 as [p e p1 E S|p e p1 es p2 b E S R IH|p p1 E];
    intros es' q' b' R'; inversion R'; subst;
    try congruence;
    match goal with
    | H : parseExpr p = _ |- _ => rewrite E in H; inversion H; subst
    end; try congruence; try (now repeat split).
  destruct (IH _ _ _ ltac:(eassumption)) as (-> & -> & ->). now repeat split.
Qed.

Lemma LoopRun_nonempty stop p es q :
  LoopRun stop p es q true -> es <> [].
Proof. inversion 1; discriminate. Qed.

Lemma listLoop_run stop k (n : nat) :
  forall acc p, size (scanner p) < n -> size (scanner p) < k ->
  exists es q b,
    LoopRun stop p es q b
    /\ listLoop (parseExpr_fuel k) stop n acc p =
       Some ((if b then Some (acc ++ es)%list else None), q).
Proof.
  induction n as [|n IH]; intros acc p Hn Hk; [lia|].
  simpl. rewrite parseExpr_fuel_eq by exact Hk.
  pose proof (parseExpr_progress p) as [_ Hlt].
  destruct (parseExpr p) as [[e|] p1] eqn:E; simpl in Hlt.
  - specialize (Hlt ltac:(discriminate)).
    destruct (stop (scanner p1)) eqn:S.
    + exists [e], p1, true. split; [now apply run_last|reflexivity].
    + destruct (IH (acc ++ [e])%list p1) as (es & q & b & R & L); try lia.
      exists (e :: es), q, b. split; [now apply run_more with p1|].
      rewrite L. now rewrite <- app_assoc.
  - exists [], p1, false. split; [now apply run_nil|reflexivity].
Qed.

(** Every list loop ends one way or the other. *)
Lemma LoopRun_total stop p : exists es q b, LoopRun stop p es q b.
Proof.
  destruct (listLoop_run stop (S (size (scanner p))) (S (size (scanner p)))
              [] p) as (es & q & b & R & _); try lia.
  now exists es, q, b.
Qed.

Lemma parseExpr_colon (p : Parser) :
  typ (scanner p) = TokenColon ->
  forall es q b, LoopRun (listStop p) (listStart p) es q b ->
  parseExpr p =
    if b then (Some (ListExpr es), listEnd p q) else (None, q).
Proof.
  intros Ht es q b R. pose proof (parseExpr_unfold p) as E.
  simpl in E. rewrite Ht in E.
  change (snd (scan (scanner p))) with (scanner (advance p)) in E.
  pose proof (size_advance_lt p ltac:(rewrite Ht; discriminate)) as H1.
  pose proof (size_advance_le (advance p)) as H2.
  unfold listStop, listStart, listEnd, isBraceForm in *.
  destruct (TokenType_eqb (typ (scanner (advance p))) TokenLBraces).
  - destruct (listLoop_run atRBraces (size (scanner p)) (size (scanner p))
                [] (advance (advance p))) as (es' & q' & b' & R' & L);
      try lia.
    destruct (LoopRun_fun _ _ _ _ _ R _ _ _ R') as (-> & -> & ->).
    rewrite L in E. destruct b; now inversion E.
  - destruct (listLoop_run atNewline (size (scanner p)) (size (scanner p))
                [] (advance p)) as (es' & q' & b' & R' & L); try lia.
    destruct (LoopRun_fun _ _ _ _ _ R _ _ _ R') as (-> & -> & ->).
    rewrite L in E. destruct b; now inversion E.
Qed.

(** ** Scanners over given tokens *)

Lemma scan_seek (s : Scanner) : snd (scan s) = seek s (pending s).
Proof. now destruct s. Qed.

Lemma seek_seek (s : Scanner) (t : Token) (l l' : list Token) :
  seek (seek s (t :: l)) l' = seek s l'.
Proof. reflexivity. Qed.

Lemma scan_seek_cons (s : Scanner) (t : Token) (l : list Token) :
  scan (seek s (t :: l)) = (match l with [] => false | _ => true end,
                            seek s l).
Proof. now destruct l. Qed.

Lemma advance_moveTo (p : Parser) : advance p = moveTo p (pending (scanner p)).
Proof. unfold advance, moveTo. now rewrite scan_seek. Qed.

Lemma advance_moveTo_cons (p : Parser) (t : Token) (l : list Token) :
  advance (moveTo p (t :: l)) = moveTo p l.
Proof. unfold advance, moveTo. simpl scanner. now rewrite scan_seek_cons. Qed.

Lemma advance_moveTo_nil (p : Parser) : advance (moveTo p []) = moveTo p [].
Proof.
  unfold advance, moveTo, seek, scan. simpl.
  destruct (err (scanner p)), (failure (scanner p)); reflexivity.
Qed.

Lemma advance_moveTo_tl (p : Parser) (K : list Token) :
  advance (moveTo p K) = moveTo p (tl K).
Proof.
  destruct K; [apply advance_moveTo_nil|apply advance_moveTo_cons].
Qed.

Lemma scanArgs_tokens (semi : Token) (rest : list Token) :
  ttyp semi = TokenSemicolon ->
  forall args, Forall notSemicolon args ->
  forall n acc s, pending s = (args ++ semi :: rest)%list ->
                  length args < n ->
  scanArgs n acc s = Some ((acc ++ map ttext args)%list,
                           seek s (semi :: rest)).
Proof.
  intros Hsemi args Hargs.
  induction Hargs as [|a args Ha _ IH]; intros n acc s Hp Hn;
    (destruct n as [|n]; [simpl in Hn; lia|]); simpl scanArgs;
    rewrite (surjective_pairing (scan s)), scan_seek, Hp.
  - simpl app. replace (typ (seek s (semi :: rest))) with (ttyp semi)
      by reflexivity.
    rewrite Hsemi. simpl. rewrite andb_false_r. now rewrite app_nil_r.
  - simpl app. replace (fst (scan s)) with true
      by (unfold scan; now rewrite Hp).
    replace (typ (seek s (a :: args ++ semi :: rest))) with (ttyp a)
      by reflexivity.
    replace (negb (TokenType_eqb (ttyp a) TokenSemicolon)) with true
      by (unfold notSemicolon in Ha; destruct (ttyp a); simpl; congruence).
    simpl andb. cbv iota.
    erewrite IH; [|reflexivity|simpl in Hn; lia].
    rewrite seek_seek. simpl map. now rewrite <- app_assoc.
Qed.

(** ** Strings *)

Lemma append_assoc (a b c : string) : (a ++ b) ++ c = a ++ (b ++ c).
Proof. induction a as [|x a IH]; simpl; [reflexivity|now rewrite IH]. Qed.

Lemma append_nil_r (a : string) : a ++ EmptyString = a.
Proof. induction a as [|x a IH]; simpl; [reflexivity|now rewrite IH]. Qed.

Lemma listBody_fold (es : list Expr) (buf : string) :
  fold_left (fun buf expr => (buf ++ Expr_String expr) ++ "; ") es buf
  = buf ++ listBody es.
Proof.
  revert buf. induction es as [|e es IH]; intros buf; simpl.
  - now rewrite append_nil_r.
  - rewrite IH. unfold listBody. simpl. now rewrite !append_assoc.
Qed.

Lemma String_of_list :
  (forall es : list Expr,
      Expr_String (ListExpr es) = ":{{ " ++ listBody es ++ "}}")
  /\ (forall (e : Expr) (es : list Expr),
         listBody (e :: es) = Expr_String e ++ "; " ++ listBody es).
Proof.
  split.
  - intros es. simpl. now rewrite listBody_fold, append_assoc.
  - intros e es. unfold listBody. simpl. now rewrite append_assoc.
Qed.

(** ** Calls and exec forms *)

Lemma call_or_exec_result (p : Parser) :
  isCallOrExec p = true ->
  exists node p3,
    (node = None -> False)
    /\ parseExpr p = match err (scanner p3) with
                     | Some e => (None, setErr p3 e)
                     | None => (node, p3)
                     end.
Proof.
  unfold isCallOrExec. intros H.
  destruct (typ (scanner p)) eqn:Ht; try discriminate.
  - apply negb_true_iff in H.
    destruct (parseExpr_call p Ht H) as (a & s1 & _ & E).
    eexists (Some _), _. split; [discriminate|exact E].
  - rewrite (parseExpr_prefix p Ht). cbv zeta.
    match goal with
    | |- context [let '(_, _) := ?x in _] => destruct x as [text p2]
    end.
    eexists (Some _), _. split; [discriminate|reflexivity].
Qed.

(** ** Printing and parsing again *)

Lemma lex_InIdent (s : string) :
  allIdentChars s = true ->
  forall acc k, delimited k = true ->
  lex (InIdent acc) (s ++ k) = emit (tIdent (acc ++ s)) (lex Normal k).
Proof.
  induction s as [|c s IH]; intros Hs acc k Hk; simpl append.
  - rewrite append_nil_r. destruct k as [|c k]; [reflexivity|].
    simpl in Hk. simpl lex. destruct (isSpace c) eqn:Hc; [reflexivity|].
    simpl in Hk. rewrite Hk. reflexivity.
  - simpl in Hs. apply andb_true_iff in Hs as [Hc Hs].
    unfold isIdentChar in Hc. apply negb_true_iff in Hc.
    apply orb_false_elim in Hc as [Hc H4].
    apply orb_false_elim in Hc as [Hc H3].
    apply orb_false_elim in Hc as [H1 H2].
    simpl lex. rewrite H1, H2, H3, H4.
    rewrite (IH Hs _ _ Hk). unfold snoc. now rewrite append_assoc.
Qed.

Lemma lex_ident (s k : string) :
  isIdent s = true -> delimited k = true ->
  lex Normal (s ++ k) = emit (tIdent s) (lex Normal k).
Proof.
  destruct s as [|c s]; [discriminate|]. intros Hs Hk.
  simpl in Hs. apply andb_true_iff in Hs as [Hc Hs].
  unfold isIdentStart in Hc. apply andb_true_iff in Hc as [Hc Hp].
  unfold isIdentChar in Hc. apply negb_true_iff in Hc.
  apply negb_true_iff in Hp.
  apply orb_false_elim in Hc as [Hc H4].
  apply orb_false_elim in Hc as [Hc H3].
  apply orb_false_elim in Hc as [H1 H2].
  apply orb_false_elim in Hp as [H5 H6].
  simpl append. simpl lex. rewrite H1, H2, H3, H4, H5, H6.
  now rewrite (lex_InIdent s Hs _ _ Hk).
Qed.

Lemma emits_cons t ts r : emits (t :: ts) r = emit t (emits ts r).
Proof. reflexivity. Qed.

Lemma emits_app ts us r : emits (ts ++ us) r = emits ts (emits us r).
Proof. unfold emits. simpl. now rewrite app_assoc. Qed.

Lemma forallb_Forall_reparsable (P : Expr -> Prop) (es : list Expr) :
  Forall (fun e => reparsable e = true -> P e) es ->
  forallb reparsable es = true -> Forall P es.
Proof.
  induction 1 as [|e es He _ IH]; intros H; constructor;
    simpl in H; apply andb_true_iff in H as [H1 H2]; auto.
Qed.

Lemma lex_space (x : string) : lex Normal (String " " x) = lex Normal x.
Proof. reflexivity. Qed.

Lemma String_set_k opt val k :
  Expr_String (SetExpr opt val) ++ k
  = "set" ++ String " " (opt ++ String " " (val ++ k)).
Proof. simpl. now rewrite !append_assoc. Qed.

Lemma String_map_k keys x k :
  Expr_String (MapExpr keys (Some x)) ++ k
  = "map" ++ String " " (keys ++ String " " (Expr_String x ++ k)).
Proof. simpl. now rewrite !append_assoc. Qed.

Lemma String_cmd_k name x k :
  Expr_String (CmdExpr name (Some x)) ++ k
  = "cmd" ++ String " " (name ++ String " " (Expr_String x ++ k)).
Proof. simpl. now rewrite !append_assoc. Qed.

Lemma String_list_k es k :
  Expr_String (ListExpr es) ++ k
  = String ":" (String "{" (String "{" (String " "
      (listBody es ++ String "}" (String "}" k))))).
Proof.
  rewrite (proj1 String_of_list). simpl.
  now rewrite !append_assoc.
Qed.

Lemma listBody_cons_k e es k :
  listBody (e :: es) ++ k
  = Expr_String e ++ String ";" (String " " (listBody es ++ k)).
Proof.
  rewrite (proj2 String_of_list), !append_assoc. reflexivity.
Qed.

(** The lexer reads the [String] text of a reparsable expression as its
    tokens, whatever delimited text follows. *)
Lemma lex_Expr_String (e : Expr) :
  reparsable e = true ->
  forall k, delimited k = true ->
  lex Normal (Expr_String e ++ k) = emits (toks e) (lex Normal k).
Proof.
  induction e as [opt val|keys|keys x IH|name|name x IH|name args|pref text
                 |es IH] using Expr_ind;
    intros Hr k Hk; try discriminate.
  - simpl in Hr. apply andb_true_iff in Hr as [Ho Hv].
    rewrite String_set_k.
    rewrite (lex_ident "set"), lex_space by reflexivity.
    rewrite (lex_ident opt), lex_space by (assumption || reflexivity).
    rewrite (lex_ident val) by assumption.
    reflexivity.
  - simpl in Hr. apply andb_true_iff in Hr as [Hkeys Hx].
    rewrite String_map_k.
    rewrite (lex_ident "map"), lex_space by reflexivity.
    rewrite (lex_ident keys), lex_space by (assumption || reflexivity).
    rewrite (IH Hx k Hk). reflexivity.
  - simpl in Hr. apply andb_true_iff in Hr as [Hname Hx].
    rewrite String_cmd_k.
    rewrite (lex_ident "cmd"), lex_space by reflexivity.
    rewrite (lex_ident name), lex_space by (assumption || reflexivity).
    rewrite (IH Hx k Hk). reflexivity.
  - assert (Hes : forallb reparsable es = true)
      by (destruct es; [discriminate|exact Hr]).
    pose proof (forallb_Forall_reparsable _ es IH Hes) as Hall.
    clear IH Hr Hes.
    rewrite String_list_k.
    change (lex Normal (String ":" (String "{" (String "{" (String " "
              (listBody es ++ String "}" (String "}" k)))))))
      with (emit tColon (emit tLBraces
              (lex Normal (listBody es ++ String "}" (String "}" k))))).
    simpl toks. rewrite !emits_cons. do 2 f_equal.
    rewrite emits_app.
    induction Hall as [|e es He Hall IHes].
    + reflexivity.
    + rewrite listBody_cons_k. simpl flat_map.
      rewrite <- app_assoc, emits_app.
      rewrite He by reflexivity. simpl app. rewrite emits_cons.
      change (lex Normal (String ";" (String " "
                (listBody es ++ String "}" (String "}" k)))))
        with (emit tSemicolon
                (lex Normal (listBody es ++ String "}" (String "}" k)))).
      now rewrite IHes.
Qed.

Lemma toks_head (e : Expr) :
  reparsable e = true ->
  exists t l, toks e = t :: l /\ ttyp t <> TokenRBraces.
Proof.
  destruct e as [opt val|keys [x|]|name [x|]|name args|pref text|es];
    intros H; try discriminate; simpl; eexists _, _;
    (split; [reflexivity|discriminate]).
Qed.

(** The parser reads the tokens of a reparsable expression as that
    expression, and takes one more token if there is one. *)
Lemma parseExpr_toks (e : Expr) :
  reparsable e = true ->
  forall p K,
    parseExpr (moveTo p (toks e ++ K)) = (Some e, moveTo p (tl K)).
Proof.
  induction e as [opt val|keys|keys x IH|name|name x IH|name args|pref text
                 |es IH] using Expr_ind;
    intros Hr p K; try discriminate.
  - simpl toks. simpl app.
    rewrite parseExpr_set by reflexivity. cbv zeta.
    rewrite !advance_moveTo_cons. simpl TokenType_eqb. cbv iota.
    rewrite ?advance_moveTo_cons, advance_moveTo_tl. reflexivity.
  - simpl in Hr. apply andb_true_iff in Hr as [_ Hx].
    simpl toks. simpl app.
    rewrite parseExpr_map by reflexivity. cbv zeta.
    rewrite !advance_moveTo_cons, (IH Hx). reflexivity.
  - simpl in Hr. apply andb_true_iff in Hr as [_ Hx].
    simpl toks. simpl app.
    rewrite parseExpr_cmd by reflexivity. cbv zeta.
    rewrite !advance_moveTo_cons, (IH Hx). reflexivity.
  - assert (Hne : es <> []) by (destruct es; [discriminate|discriminate]).
    assert (Hes : forallb reparsable es = true)
      by (destruct es; [discriminate|exact Hr]).
    assert (Hheads : Forall (fun e => reparsable e = true) es)
      by (apply Forall_forall; now apply forallb_forall).
    pose proof (forallb_Forall_reparsable _ es IH Hes) as Hall.
    clear IH Hr Hes.
    simpl toks. simpl app. rewrite <- app_assoc. simpl app.
    set (body := fun es : list Expr =>
                   (flat_map (fun x => toks x ++ [tSemicolon]) es
                      ++ tRBraces :: K)%list).
    set (p0 := moveTo p (tColon :: tLBraces :: body es)).
    assert (R : LoopRun atRBraces (moveTo p (body es)) es
                  (moveTo p (tRBraces :: K)) true).
    { clear p0. induction Hall as [|e es He Hall IHes]; [now elim Hne|].
      inversion Hheads as [|? ? Hre Hres]; subst.
      assert (E : parseExpr (moveTo p (body (e :: es)))
                  = (Some e, moveTo p (body es))).
      { unfold body. simpl flat_map. rewrite <- !app_assoc. simpl app.
        now rewrite He. }
      destruct es as [|e' es].
      - apply run_last; [exact E|reflexivity].
      - apply run_more with (moveTo p (body (e' :: es))); [exact E| |].
        + inversion Hres as [|? ? Hre' _]; subst.
          destruct (toks_head e' Hre') as (t & l & Et & Ht).
          unfold body. simpl flat_map. rewrite Et. simpl.
          unfold atRBraces. simpl.
          destruct (TokenType_eqb_spec (ttyp t) TokenRBraces);
            [contradiction|reflexivity].
        + apply IHes; [discriminate|exact Hres]. }
    change (parseExpr p0 = (Some (ListExpr es), moveTo p (tl K))).
    rewrite (parseExpr_colon p0 eq_refl es _ true R).
    unfold listEnd. replace (isBraceForm p0) with true by reflexivity.
    now rewrite advance_moveTo_cons, advance_moveTo_tl.
Qed.

(** ** Input that matches the grammar *)

(** A call read off given tokens: the arguments are the texts of the
    tokens before the first Semicolon. *)
Lemma parseExpr_call_tokens (p : Parser) args semi rest :
  typ (scanner p) = TokenIdent ->
  isKeyword (tok (scanner p)) = false ->
  pending (scanner p) = (args ++ semi :: rest)%list ->
  Forall notSemicolon args -> ttyp semi = TokenSemicolon ->
  err (seek (scanner p) rest) = None ->
  parseExpr p =
    (Some (CallExpr (tok (scanner p)) (map ttext args)), moveTo p rest).
Proof.
  intros Ht Hk Hp Hargs Hsemi Herr.
  destruct (parseExpr_call p Ht Hk) as (a & s1 & Ea & ->).
  rewrite (scanArgs_tokens semi rest Hsemi args Hargs _ [] _ Hp) in Ea.
  - inversion Ea; subst a s1. cbv zeta.
    change (advance {| scanner := seek (scanner p) (semi :: rest);
                       expr := expr p; perr := perr p |})
      with (advance (moveTo p (semi :: rest))).
    rewrite advance_moveTo_cons. simpl scanner. now rewrite Herr.
  - unfold size. rewrite Ht, Hp, length_app. simpl. lia.
Qed.

Lemma err_seek_clean s ts : clean s -> err (seek s ts) = None.
Proof.
  intros [He Hf]. destruct ts; unfold seek, scan; simpl; [|exact He].
  now rewrite He, Hf.
Qed.

(** Every sentence of the grammar starts with an Identifier, a Colon or a
    Prefix. *)
Lemma Derives_head ts e :
  Derives ts e ->
  exists t l, ts = t :: l
              /\ (ttyp t = TokenIdent \/ ttyp t = TokenColon
                  \/ ttyp t = TokenPrefix).
Proof.
  destruct 1;
    repeat match goal with H : isWord _ _ |- _ => destruct H end;
    eexists _, _; (split; [reflexivity|]); unfold isName in *; auto.
Qed.

Lemma DerivesSeq_head ts es :
  DerivesSeq ts es ->
  exists t l, ts = t :: l
              /\ (ttyp t = TokenIdent \/ ttyp t = TokenColon
                  \/ ttyp t = TokenPrefix).
Proof.
  destruct 1 as [ts e D|ts e tss es D _];
    destruct (Derives_head _ _ D) as (t & l & -> & H).
  - now exists t, l.
  - now exists t, (l ++ tss)%list.
Qed.

Lemma typ_moveTo_cons p t l : typ (scanner (moveTo p (t :: l))) = ttyp t.
Proof. reflexivity. Qed.

Lemma tok_moveTo_cons p t l : tok (scanner (moveTo p (t :: l))) = ttext t.
Proof. reflexivity. Qed.

Lemma pending_moveTo_cons p t l : pending (scanner (moveTo p (t :: l))) = l.
Proof. reflexivity. Qed.

Lemma moveTo_moveTo p t l l' : moveTo (moveTo p (t :: l)) l' = moveTo p l'.
Proof. reflexivity. Qed.

(** The parser reads a sentence of the grammar as the tree it stands for,
    and stops on the token after it. *)
Lemma parseExpr_Derives :
  forall ts e, Derives ts e ->
  forall p rest, clean (scanner p) ->
    parseExpr (moveTo p (ts ++ rest)) = (Some e, moveTo p rest).
Proof.
  apply (Derives_both
           (fun ts e => forall p rest, clean (scanner p) ->
              parseExpr (moveTo p (ts ++ rest)) = (Some e, moveTo p rest))
           (fun ts es => forall p stop rest, clean (scanner p) ->
              ttyp stop = TokenRBraces ->
              LoopRun atRBraces (moveTo p (ts ++ stop :: rest)) es
                (moveTo p (stop :: rest)) true)).
  - intros kw o semi [Hk Hw] Ho Hs p rest Hc. simpl app.
    rewrite parseExpr_set by assumption. cbv zeta.
    rewrite !advance_moveTo_cons, typ_moveTo_cons, Hs. simpl TokenType_eqb.
    cbv iota. now rewrite ?advance_moveTo_cons.
  - intros kw o v semi [Hk Hw] Ho Hv Hs p rest Hc. simpl app.
    rewrite parseExpr_set by assumption. cbv zeta.
    rewrite !advance_moveTo_cons, typ_moveTo_cons. unfold isName in Hv.
    rewrite Hv. simpl TokenType_eqb. cbv iota.
    now rewrite ?advance_moveTo_cons.
  - intros kw k ts e [Hk Hw] Hn _ IH p rest Hc. simpl app.
    rewrite parseExpr_map by assumption. cbv zeta.
    rewrite !advance_moveTo_cons, (IH p rest Hc). reflexivity.
  - intros kw k ts e [Hk Hw] Hn _ IH p rest Hc. simpl app.
    rewrite parseExpr_cmd by assumption. cbv zeta.
    rewrite !advance_moveTo_cons, (IH p rest Hc). reflexivity.
  - intros name args semi Hn Hk Hargs Hs p rest Hc. simpl app.
    rewrite <- app_assoc. simpl app.
    rewrite (parseExpr_call_tokens _ args semi rest); try assumption.
    + reflexivity.
    + reflexivity.
    + revert Hargs. apply Forall_impl. intros a Ha. unfold isName in Ha.
      unfold notSemicolon. rewrite Ha. discriminate.
    + simpl scanner. rewrite seek_seek. now apply err_seek_clean.
  - intros pfx text nl Hp Ht Hnl p rest Hc. simpl app.
    rewrite parseExpr_prefix by assumption. cbv zeta.
    rewrite !advance_moveTo_cons, typ_moveTo_cons, Ht. simpl TokenType_eqb.
    cbv iota. rewrite ?advance_moveTo_cons. simpl scanner.
    now rewrite err_seek_clean.
  - intros pfx lb text rb semi Hp Hlb Ht Hrb Hs p rest Hc. simpl app.
    rewrite parseExpr_prefix by assumption. cbv zeta.
    rewrite !advance_moveTo_cons, typ_moveTo_cons, Hlb. simpl TokenType_eqb.
    cbv iota. rewrite ?advance_moveTo_cons. simpl scanner.
    now rewrite err_seek_clean.
  - intros colon ts e nl Hcol D IH Hnl p rest Hc. simpl app.
    rewrite <- app_assoc. simpl app.
    destruct (Derives_head _ _ D) as (t & l & -> & Ht).
    set (p0 := moveTo p (colon :: ((t :: l) ++ nl :: rest)%list)).
    assert (Hb : isBraceForm p0 = false).
    { unfold isBraceForm, p0. simpl app. rewrite advance_moveTo_cons.
      rewrite typ_moveTo_cons. destruct Ht as [Ht|[Ht|Ht]]; now rewrite Ht. }
    assert (R : LoopRun (listStop p0) (listStart p0) [e]
                  (moveTo p (nl :: rest)) true).
    { unfold listStop, listStart. rewrite Hb. unfold p0.
      rewrite advance_moveTo_cons. apply run_last; [now apply IH|].
      unfold atNewline. rewrite tok_moveTo_cons, Hnl. reflexivity. }
    rewrite (parseExpr_colon p0 Hcol _ _ _ R).
    unfold listEnd. rewrite Hb. now rewrite advance_moveTo_cons.
  - intros colon lb ts es rb semi Hcol Hlb _ IH Hrb Hs p rest Hc. simpl app.
    rewrite <- app_assoc. simpl app.
    set (p0 := moveTo p (colon :: lb :: (ts ++ rb :: semi :: rest)%list)).
    assert (Hb : isBraceForm p0 = true).
    { unfold isBraceForm, p0. rewrite advance_moveTo_cons, typ_moveTo_cons.
      now rewrite Hlb. }
    assert (R : LoopRun (listStop p0) (listStart p0) es
                  (moveTo p (rb :: semi :: rest)) true).
    { unfold listStop, listStart. rewrite Hb. unfold p0.
      rewrite !advance_moveTo_cons. now apply IH. }
    rewrite (parseExpr_colon p0 Hcol _ _ _ R).
    unfold listEnd. rewrite Hb. now rewrite ?advance_moveTo_cons.
  - intros ts e _ IH p stop rest Hc Hstop.
    apply run_last; [now apply IH|].
    unfold atRBraces. rewrite typ_moveTo_cons, Hstop. reflexivity.
  - intros ts e tss es _ IH D IHs p stop rest Hc Hstop.
    rewrite <- app_assoc.
    apply run_more with (moveTo p (tss ++ stop :: rest)%list).
    + now apply IH.
    + destruct (DerivesSeq_head _ _ D) as (t & l & -> & Ht).
      unfold atRBraces. simpl app. rewrite typ_moveTo_cons.
      destruct Ht as [Ht|[Ht|Ht]]; now rewrite Ht.
    + now apply IHs.
Qed.

(** ** Printing and parsing again, sets without a value included *)

(** The expressions of [reparsable] are among those of [roundTrips]. *)
Lemma reparsable_roundTrips (e : Expr) :
  reparsable e = true -> forall semi, roundTrips semi e = true.
Proof.
  induction e as [opt val|keys|keys x IH|name|name x IH|name args|pref text
                 |es IH] using Expr_ind;
    intros Hr semi; try discriminate; simpl in *.
  - apply andb_true_iff in Hr as [Ho Hv]. now rewrite Ho, Hv.
  - apply andb_true_iff in Hr as [Hk Hx]. now rewrite Hk, IH.
  - apply andb_true_iff in Hr as [Hk Hx]. now rewrite Hk, IH.
  - assert (Hes : forallb reparsable es = true)
      by (destruct es; [discriminate|exact Hr]).
    assert (H : forallb (roundTrips true) es = true).
    { clear Hr. induction IH as [|y ys Hy _ IHl]; [reflexivity|].
      simpl in *. apply andb_true_iff in Hes as [H1 H2].
      now rewrite Hy, IHl. }
    destruct es; [discriminate|exact H].
Qed.

Lemma isIdent_nonempty s : isIdent s = true -> (s =? EmptyString) = false.
Proof. now destruct s. Qed.

Lemma forallb_Forall_roundTrips (P : Expr -> Prop) (es : list Expr) :
  Forall (fun e => roundTrips true e = true -> P e) es ->
  forallb (roundTrips true) es = true -> Forall P es.
Proof.
  induction 1 as [|e es He _ IH]; intros H; constructor;
    simpl in H; apply andb_true_iff in H as [H1 H2]; auto.
Qed.

(** The lexer reads the [String] text of such an expression as its tokens,
    whatever delimited text follows. *)
Lemma lex_words (e : Expr) :
  forall semi, roundTrips semi e = true ->
  forall k, delimited k = true ->
  lex Normal (Expr_String e ++ k) = emits (words e) (lex Normal k).
Proof.
  induction e as [opt val|keys|keys x IH|name|name x IH|name args|pref text
                 |es IH] using Expr_ind;
    intros semi Hr k Hk; try discriminate.
  - simpl in Hr. apply andb_true_iff in Hr as [Ho Hv].
    rewrite String_set_k.
    rewrite (lex_ident "set"), lex_space by reflexivity.
    rewrite (lex_ident opt), lex_space by (assumption || reflexivity).
    simpl words. apply orb_true_iff in Hv as [Hv|Hv].
    + rewrite (isIdent_nonempty _ Hv), (lex_ident val) by assumption.
      reflexivity.
    + apply andb_true_iff in Hv as [_ Hv]. rewrite Hv.
      apply String.eqb_eq in Hv. subst val. reflexivity.
  - simpl in Hr. apply andb_true_iff in Hr as [Hkeys Hx].
    rewrite String_map_k.
    rewrite (lex_ident "map"), lex_space by reflexivity.
    rewrite (lex_ident keys), lex_space by (assumption || reflexivity).
    rewrite (IH semi Hx k Hk). reflexivity.
  - simpl in Hr. apply andb_true_iff in Hr as [Hname Hx].
    rewrite String_cmd_k.
    rewrite (lex_ident "cmd"), lex_space by reflexivity.
    rewrite (lex_ident name), lex_space by (assumption || reflexivity).
    rewrite (IH semi Hx k Hk). reflexivity.
  - assert (Hes : forallb (roundTrips true) es = true)
      by (destruct es; [discriminate|exact Hr]).
    assert (Hall : Forall (fun e => forall k, delimited k = true ->
                     lex Normal (Expr_String e ++ k)
                     = emits (words e) (lex Normal k)) es).
    { apply (forallb_Forall_roundTrips _ es); [|exact Hes].
      revert IH. apply Forall_impl. intros e He H. now apply (He true). }
    clear IH Hr Hes.
    rewrite String_list_k.
    change (lex Normal (String ":" (String "{" (String "{" (String " "
              (listBody es ++ String "}" (String "}" k)))))))
      with (emit tColon (emit tLBraces
              (lex Normal (listBody es ++ String "}" (String "}" k))))).
    simpl words. rewrite !emits_cons. do 2 f_equal.
    rewrite emits_app.
    induction Hall as [|e es He Hall IHes].
    + reflexivity.
    + rewrite listBody_cons_k. simpl flat_map.
      rewrite <- app_assoc, emits_app.
      rewrite He by reflexivity. simpl app. rewrite emits_cons.
      change (lex Normal (String ";" (String " "
                (listBody es ++ String "}" (String "}" k)))))
        with (emit tSemicolon
                (lex Normal (listBody es ++ String "}" (String "}" k)))).
      now rewrite IHes.
Qed.

Lemma words_head (e : Expr) semi :
  roundTrips semi e = true ->
  exists t l, words e = t :: l /\ ttyp t <> TokenRBraces.
Proof.
  destruct e as [opt val|keys [x|]|name [x|]|name args|pref text|es];
    intros H; try discriminate; simpl; eexists _, _;
    (split; [reflexivity|discriminate]).
Qed.

Lemma tok_moveTo_nil p : tok (scanner (moveTo p [])) = eofTok (scanner p).
Proof. reflexivity. Qed.

Lemma typ_moveTo_nil p : typ (scanner (moveTo p [])) = TokenEOF.
Proof. reflexivity. Qed.

(** The parser reads these tokens as the expression, and takes one more
    token if there is one. *)
Lemma parseExpr_words (e : Expr) :
  forall semi, roundTrips semi e = true ->
  forall p K, closes semi (scanner p) K ->
    parseExpr (moveTo p (words e ++ K)) = (Some e, moveTo p (tl K)).
Proof.
  induction e as [opt val|keys|keys x IH|name|name x IH|name args|pref text
                 |es IH] using Expr_ind;
    intros semi Hr p K HK; try discriminate.
  - simpl in Hr. apply andb_true_iff in Hr as [Ho Hv].
    simpl words. apply orb_true_iff in Hv as [Hv|Hv].
    + rewrite (isIdent_nonempty _ Hv). simpl app.
      rewrite parseExpr_set by reflexivity. cbv zeta.
      rewrite !advance_moveTo_cons. simpl TokenType_eqb. cbv iota.
      rewrite ?advance_moveTo_cons, advance_moveTo_tl. reflexivity.
    + apply andb_true_iff in Hv as [Hs Hv]. rewrite Hv.
      apply String.eqb_eq in Hv. subst val. specialize (HK Hs).
      simpl app. rewrite parseExpr_set by reflexivity. cbv zeta.
      rewrite !advance_moveTo_cons. destruct K as [|t K].
      * rewrite typ_moveTo_nil. simpl TokenType_eqb. cbv iota.
        rewrite tok_moveTo_nil, HK, !advance_moveTo_nil. reflexivity.
      * rewrite typ_moveTo_cons, HK. simpl TokenType_eqb. cbv iota.
        rewrite ?advance_moveTo_cons. reflexivity.
  - simpl in Hr. apply andb_true_iff in Hr as [_ Hx].
    simpl words. simpl app.
    rewrite parseExpr_map by reflexivity. cbv zeta.
    rewrite !advance_moveTo_cons, (IH semi Hx p K HK). reflexivity.
  - simpl in Hr. apply andb_true_iff in Hr as [_ Hx].
    simpl words. simpl app.
    rewrite parseExpr_cmd by reflexivity. cbv zeta.
    rewrite !advance_moveTo_cons, (IH semi Hx p K HK). reflexivity.
  - assert (Hne : es <> []) by (destruct es; [discriminate|discriminate]).
    assert (Hes : forallb (roundTrips true) es = true)
      by (destruct es; [discriminate|exact Hr]).
    assert (Hheads : Forall (fun e => roundTrips true e = true) es)
      by (apply Forall_forall; now apply forallb_forall).
    assert (Hall : Forall (fun e => forall K,
                     parseExpr (moveTo p (words e ++ tSemicolon :: K))
                     = (Some e, moveTo p K)) es).
    { apply (forallb_Forall_roundTrips _ es); [|exact Hes].
      revert IH. apply Forall_impl. intros e He H K'.
      now apply (He true H p (tSemicolon :: K')). }
    clear IH Hr Hes HK.
    simpl words. simpl app. rewrite <- app_assoc. simpl app.
    set (body := fun es : list Expr =>
                   (flat_map (fun x => words x ++ [tSemicolon]) es
                      ++ tRBraces :: K)%list).
    set (p0 := moveTo p (tColon :: tLBraces :: body es)).
    assert (R : LoopRun atRBraces (moveTo p (body es)) es
                  (moveTo p (tRBraces :: K)) true).
    { clear p0. induction Hall as [|e es He Hall IHes]; [now elim Hne|].
      inversion Hheads as [|? ? Hre Hres]; subst.
      assert (E : parseExpr (moveTo p (body (e :: es)))
                  = (Some e, moveTo p (body es))).
      { unfold body. simpl flat_map. rewrite <- !app_assoc. simpl app.
        now rewrite He. }
      destruct es as [|e' es].
      - apply run_last; [exact E|reflexivity].
      - apply run_more with (moveTo p (body (e' :: es))); [exact E| |].
        + inversion Hres as [|? ? Hre' _]; subst.
          destruct (words_head e' true Hre') as (t & l & Et & Ht).
          unfold body. simpl flat_map. rewrite Et. simpl.
          unfold atRBraces. simpl.
          destruct (TokenType_eqb_spec (ttyp t) TokenRBraces);
            [contradiction|reflexivity].
        + apply IHes; [discriminate|exact Hres]. }
    change (parseExpr p0 = (Some (ListExpr es), moveTo p (tl K))).
    rewrite (parseExpr_colon p0 eq_refl es _ true R).
    unfold listEnd. replace (isBraceForm p0) with true by reflexivity.
    now rewrite advance_moveTo_cons, advance_moveTo_tl.
Qed.

(** parse() on the text of such an expression. *)
Lemma parse_String (e : Expr) (eof : string) :
  roundTrips (eof =? EmptyString) e = true ->
  let r := parse (newParser (newScanner eof (Expr_String e))) in
  fst r = true /\ expr (snd r) = Some e /\ perr (snd r) = None.
Proof.
  intros Hr.
  pose proof (lex_words e _ Hr EmptyString eq_refl) as L.
  rewrite append_nil_r in L. unfold emits in L. simpl in L.
  rewrite app_nil_r in L.
  unfold newScanner. rewrite L.
  set (p0 := {| scanner := cursor [] None eof; expr := None; perr := None |}).
  change (newParser (cursor (words e) None eof)) with (moveTo p0 (words e)).
  assert (HK : closes (eof =? EmptyString) (scanner p0) []).
  { intros H. apply String.eqb_eq in H. exact H. }
  pose proof (parseExpr_words e _ Hr p0 [] HK) as P. rewrite app_nil_r in P.
  unfold parse. rewrite P. now repeat split.
Qed.

(** parse() on a sentence of the grammar. *)
Lemma parse_Derives ts e eof :
  Derives ts e ->
  let r := parse (newParser (cursor ts None eof)) in
  fst r = true /\ expr (snd r) = Some e /\ perr (snd r) = None.
Proof.
  intros D.
  set (p0 := {| scanner := cursor [] None eof; expr := None; perr := None |}).
  change (newParser (cursor ts None eof)) with (moveTo p0 ts).
  pose proof (parseExpr_Derives ts e D p0 [] (conj eq_refl eq_refl)) as P.
  rewrite app_nil_r in P. unfold parse. rewrite P. now repeat split.
Qed.

(** ** The identifiers of the lexing rules *)

Lemma allIdentChars_snoc acc c :
  allIdentChars acc = true -> isIdentChar c = true ->
  allIdentChars (snoc acc c) = true.
Proof.
  intros Ha Hc. unfold snoc. induction acc as [|a acc IH]; simpl in *.
  - now rewrite Hc.
  - apply andb_true_iff in Ha as [H1 H2]. now rewrite H1, IH.
Qed.

Lemma isIdent_snoc acc c :
  isIdent acc = true -> isIdentChar c = true -> isIdent (snoc acc c) = true.
Proof.
  destruct acc as [|a acc]; [discriminate|]. intros Ha Hc.
  simpl in Ha. apply andb_true_iff in Ha as [H1 H2].
  change (isIdentStart a && allIdentChars (snoc acc c) = true).
  now rewrite H1, allIdentChars_snoc.
Qed.

Lemma isIdentChar_intro c :
  isSpace c = false -> (c =? ";")%char = false ->
  (c =? "{")%char = false -> (c =? "}")%char = false ->
  isIdentChar c = true.
Proof. intros H1 H2 H3 H4. unfold isIdentChar. now rewrite H1, H2, H3, H4. Qed.

Lemma Forall_fst_emit (P : Token -> Prop) t r :
  P t -> Forall P (fst r) -> Forall P (fst (emit t r)).
Proof. intros. now constructor. Qed.

Lemma identOK_other t : ttyp t <> TokenIdent -> identOK t.
Proof. intros H E. contradiction. Qed.

Ltac lex_cases IH :=
  repeat first
    [ apply Forall_nil
    | apply Forall_fst_emit;
        [first [ apply identOK_other; discriminate
               | intros _; assumption ]|]
    | apply Forall_cons;
        [first [ apply identOK_other; discriminate
               | intros _; assumption ]|]
    | apply IH; [simpl in *; lia|simpl; try exact I]
    | match goal with
      | |- context [if ?b then _ else _] => destruct b eqn:?
      end
    | match goal with
      | |- Forall _ (fst (match ?r with
                          | EmptyString => _ | String _ _ => _ end)) =>
          destruct r as [|[[] [] [] [] [] [] [] []] ?]
      end ].

(** Every Identifier the lexing rules deliver reads back as one
    identifier. *)
Lemma lex_identOK_upto (n : nat) :
  forall input m, String.length input <= n -> modeOK m ->
  Forall identOK (fst (lex m input)).
Proof.
  induction n as [|n IH]; intros input m Hlen Hm.
  - destruct input; [|simpl in Hlen; lia].
    destruct m; simpl; lex_cases IH.
  - destruct input as [|c rest].
    + destruct m; simpl; lex_cases IH.
    + destruct m; simpl lex; simpl modeOK in Hm.
      * lex_cases IH.
        simpl. unfold isIdentStart. rewrite isIdentChar_intro by assumption.
        match goal with
        | H1 : (c =? ":")%char = false, H2 : isPrefix c = false |- _ =>
            now rewrite H1, H2
        end.
      * lex_cases IH.
        apply isIdent_snoc; [assumption|now apply isIdentChar_intro].
      * lex_cases IH.
      * lex_cases IH.
      * lex_cases IH.
Qed.

Lemma lex_identOK (input : string) : Forall identOK (fst (lex Normal input)).
Proof. now apply (lex_identOK_upto (String.length input)). Qed.

(** A tree of the grammar whose names are identifiers prints and parses
    back as soon as its shape allows. *)
Lemma Derives_roundTrips :
  forall ts e, Derives ts e -> Forall identOK ts ->
  forall semi, plain semi e = true -> roundTrips semi e = true.
Proof.
  apply (Derives_both
           (fun ts e => Forall identOK ts ->
              forall semi, plain semi e = true -> roundTrips semi e = true)
           (fun ts es => Forall identOK ts ->
              forallb (plain true) es = true ->
              es <> [] /\ forallb (roundTrips true) es = true)).
  - intros kw o semi _ Ho _ Hall b Hp. simpl in *.
    inversion Hall as [|? ? _ Hall']; subst.
    inversion Hall' as [|? ? Hok _]; subst.
    rewrite (Hok Ho). rewrite orb_false_r in Hp. rewrite Hp. reflexivity.
  - intros kw o v semi _ Ho Hv _ Hall b Hp. simpl.
    inversion Hall as [|? ? _ Hall']; subst.
    inversion Hall' as [|? ? Hok Hall'']; subst.
    inversion Hall'' as [|? ? Hok' _]; subst.
    now rewrite (Hok Ho), (Hok' Hv).
  - intros kw k ts e _ Hk _ IH Hall b Hp. simpl in *.
    inversion Hall as [|? ? _ Hall']; subst.
    inversion Hall' as [|? ? Hok Hall'']; subst.
    rewrite (Hok Hk). now apply IH.
  - intros kw k ts e _ Hk _ IH Hall b Hp. simpl in *.
    inversion Hall as [|? ? _ Hall']; subst.
    inversion Hall' as [|? ? Hok Hall'']; subst.
    rewrite (Hok Hk). now apply IH.
  - intros; discriminate.
  - intros; discriminate.
  - intros; discriminate.
  - intros colon ts e nl _ _ IH _ Hall b Hp. simpl in *.
    inversion Hall as [|? ? _ Hall']; subst.
    apply Forall_app in Hall' as [Hts _].
    rewrite andb_true_r in Hp. now rewrite (IH Hts true Hp).
  - intros colon lb ts es rb semi _ _ _ IH _ _ Hall b Hp. simpl in *.
    inversion Hall as [|? ? _ Hall']; subst.
    inversion Hall' as [|? ? _ Hall'']; subst.
    apply Forall_app in Hall'' as [Hts _].
    destruct (IH Hts Hp) as [Hne H]. destruct es; [now elim Hne|exact H].
  - intros ts e _ IH Hall Hp. simpl in *.
    rewrite andb_true_r in Hp. split; [discriminate|].
    now rewrite (IH Hall true Hp).
  - intros ts e tss es _ IH _ IHs Hall Hp. simpl in *.
    apply Forall_app in Hall as [H1 H2].
    apply andb_true_iff in Hp as [P1 P2].
    split; [discriminate|]. rewrite (IH H1 true P1).
    now destruct (IHs H2 P2).
Qed.

(** ** The claims *)

(** C1 (what the code does on the failing input): on the truncated input
    [map gg] the nested parseExpr() returns nil at the end of input, and
    the [map] production wraps it all the same: parse() returns true, the
    tree is MapExpr{"gg", nil} and no error is recorded.  The [cmd]
    production does the same on [cmd usage]. *)
Theorem truncated_map_escapes_with_nil_body :
  (forall eof,
      let r := parse (newParser (newScanner eof "map gg")) in
      fst r = true
      /\ expr (snd r) = Some (MapExpr "gg" None)
      /\ perr (snd r) = None)
  /\ (forall eof,
         let r := parse (newParser (newScanner eof "cmd usage")) in
         fst r = true
         /\ expr (snd r) = Some (CmdExpr "usage" None)
         /\ perr (snd r) = None).
Proof. split; now intros eof. Qed.

(** C2 (amended): first, for every sequence of tokens that matches the
    published grammar, each brace list holding one expression or more,
    and that ends in no lexical error, parse() succeeds and stores the tree
    the grammar gives, with no error.  Second, for every expression made of
    [set], [map] and [cmd] expressions and of lists that are not empty, all
    names being identifiers, in which a [set] without a value stands only
    where a Semicolon follows its text (in an element of a list) or where
    the end-of-input token has the empty text: parse() succeeds on the text
    that String() gives and stores that very expression.  Third, and
    therefore, for every input text whose tokens match the grammar, parse()
    succeeds, and String() of the tree parses back to the tree whenever the
    tree holds no call and no exec expression, and no [set] without a value
    outside the places just named.  Fourth, [:{{ set hidden; set preview; }};]
    is such a text, whatever the end-of-input token is. *)
Theorem valid_input_parses_and_prints_back :
  (forall ts e eof, Derives ts e ->
      let r := parse (newParser (cursor ts None eof)) in
      fst r = true /\ expr (snd r) = Some e /\ perr (snd r) = None)
  /\ (forall e eof, roundTrips (eof =? EmptyString) e = true ->
         let r := parse (newParser (newScanner eof (Expr_String e))) in
         fst r = true /\ expr (snd r) = Some e /\ perr (snd r) = None)
  /\ (forall text e eof,
         snd (lex Normal text) = None -> Derives (fst (lex Normal text)) e ->
         let r := parse (newParser (newScanner eof text)) in
         (fst r = true /\ expr (snd r) = Some e /\ perr (snd r) = None)
         /\ (plain (eof =? EmptyString) e = true ->
             let r' := parse (newParser (newScanner eof (Expr_String e))) in
             fst r' = true /\ expr (snd r') = Some e
             /\ perr (snd r') = None))
  /\ (forall eof,
         let text := ":{{ set hidden; set preview; }};" in
         let e := ListExpr [SetExpr "hidden" EmptyString;
                            SetExpr "preview" EmptyString] in
         let r := parse (newParser (newScanner eof text)) in
         let r' := parse (newParser (newScanner eof (Expr_String e))) in
         fst r = true /\ expr (snd r) = Some e
         /\ Expr_String e = ":{{ set hidden ; set preview ; }}"
         /\ fst r' = true /\ expr (snd r') = Some e).
Proof.
  split; [|split; [|split]].
  - intros ts e eof D. now apply parse_Derives.
  - intros e eof Hr. now apply parse_String.
  - intros text e eof Hf D.
    pose proof (lex_identOK text) as Hok.
    unfold newScanner at 1. destruct (lex Normal text) as [ts f].
    simpl in Hf, D, Hok. subst f. split.
    + now apply parse_Derives.
    + intros Hp. apply parse_String.
      now apply (Derives_roundTrips ts e D Hok).
  - intros eof. now repeat split.
Qed.

Lemma valid_input_parses_and_prints_back_witness :
  (let ts := [tIdent "map"; tIdent "gg"; tIdent "top"; tSemicolon] in
   let r := parse (newParser (cursor ts None "EOF")) in
   fst r = true
   /\ expr (snd r) = Some (MapExpr "gg" (Some (CallExpr "top" [])))
   /\ perr (snd r) = None)
  /\ (let e := ListExpr [SetExpr "ratios" "1:2:3";
                         MapExpr "gg" (Some (SetExpr "hidden" EmptyString));
                         CmdExpr "both"
                           (Some (ListExpr [SetExpr "preview" "off"]))] in
      let r := parse (newParser (newScanner "EOF" (Expr_String e))) in
      fst r = true /\ expr (snd r) = Some e /\ perr (snd r) = None)
  /\ (let text := ":{{ set hidden; set preview; }};" in
      let e := ListExpr [SetExpr "hidden" EmptyString;
                         SetExpr "preview" EmptyString] in
      let r := parse (newParser (newScanner "EOF" text)) in
      let r' := parse (newParser (newScanner "EOF" (Expr_String e))) in
      (fst r = true /\ expr (snd r) = Some e /\ perr (snd r) = None)
      /\ fst r' = true /\ expr (snd r') = Some e /\ perr (snd r') = None).
Proof.
  split; [|split].
  - apply (proj1 valid_input_parses_and_prints_back
             [tIdent "map"; tIdent "gg"; tIdent "top"; tSemicolon]
             (MapExpr "gg" (Some (CallExpr "top" []))) "EOF").
    apply (D_map (tIdent "map") (tIdent "gg") [tIdent "top"; tSemicolon]
             (CallExpr "top" []));
      [split; reflexivity|reflexivity|].
    apply (D_call (tIdent "top") [] tSemicolon);
      [reflexivity|reflexivity|constructor|reflexivity].
  - intros e.
    apply (proj1 (proj2 valid_input_parses_and_prints_back) e "EOF").
    reflexivity.
  - intros text e.
    assert (D : Derives (fst (lex Normal text)) e).
    { apply (D_list_block tColon tLBraces
               ([tIdent "set"; tIdent "hidden"; tSemicolon]
                ++ [tIdent "set"; tIdent "preview"; tSemicolon])
               [SetExpr "hidden" EmptyString; SetExpr "preview" EmptyString]
               tRBraces tSemicolon); try reflexivity.
      apply DS_cons; [|apply DS_one];
        (apply (D_set (tIdent "set") (tIdent _) tSemicolon);
         [split; reflexivity|reflexivity|reflexivity]). }
    destruct (proj1 (proj2 (proj2 valid_input_parses_and_prints_back))
                text e "EOF" eq_refl D) as [H1 H2].
    split; [exact H1|]. apply H2. reflexivity.
Defined.

(** C2 (counterexample): the claim as stated fails on [open a b c;]:
    parse() succeeds with CallExpr{"open", ["a","b","c"]}, String() gives
    the text "open -- [a b c]", and that text parses to a call with four
    arguments, "--", "[a", "b" and "c]".  It fails on [${{ echo hi }};] as
    well: the tree is ExecExpr{"$", " echo hi "}, whose text holds no
    newline that would end the command, and parse() fails on it.  On the
    empty list [:{{ }};], which the grammar allows and which lexes with no
    error, parse() returns false and records no error.  And [set nohidden;]
    gives a [set] without a value, whose text ends after the option: the
    end-of-input token is read as the value. *)
Lemma round_trip_counterexample :
  let r := parse (newParser (newScanner "EOF" "open a b c;")) in
  let e := CallExpr "open" ["a"; "b"; "c"] in
  let r' := parse (newParser (newScanner "EOF" (Expr_String e))) in
  fst r = true
  /\ expr (snd r) = Some e
  /\ Expr_String e = "open -- [a b c]"
  /\ expr (snd r') = Some (CallExpr "open" ["--"; "[a"; "b"; "c]"])
  /\ expr (snd r') <> expr (snd r)
  /\ (let x := parse (newParser (newScanner "EOF" "${{ echo hi }};")) in
      let c := ExecExpr "$" " echo hi " in
      let x' := parse (newParser (newScanner "EOF" (Expr_String c))) in
      fst x = true /\ expr (snd x) = Some c
      /\ Expr_String c = "$  echo hi "
      /\ fst x' = false /\ expr (snd x') = None)
  /\ (let l := parse (newParser (newScanner "EOF" ":{{ }};")) in
      lex Normal ":{{ }};" = ([tColon; tLBraces; tRBraces; tSemicolon], None)
      /\ fst l = false /\ expr (snd l) = None /\ perr (snd l) = None)
  /\ (let s := parse (newParser (newScanner "EOF" "set nohidden;")) in
      let v := SetExpr "nohidden" EmptyString in
      let s' := parse (newParser (newScanner "EOF" (Expr_String v))) in
      fst s = true /\ expr (snd s) = Some v
      /\ Expr_String v = "set nohidden "
      /\ expr (snd s') = Some (SetExpr "nohidden" "EOF")
      /\ expr (snd s') <> expr (snd s)).
Proof. repeat split; discriminate. Qed.

(** C3 (what the code does on the failing inputs): on a token of a
    category other than end of input, Semicolon, Identifier, Colon and
    Prefix, parseExpr() returns nil and leaves the parser as it was: no
    error is recorded.  On [}} set a b;] parse() returns false and the
    error field is still empty. *)
Theorem other_category_returns_nil_without_error :
  (forall p,
      match typ (scanner p) with
      | TokenLBraces | TokenRBraces | TokenCommand =>
          parseExpr p = (None, p)
      | _ => True
      end)
  /\ (forall eof,
         let p := newParser (newScanner eof "}} set a b;") in
         typ (scanner p) = TokenRBraces
         /\ fst (parse p) = false
         /\ perr (snd (parse p)) = None).
Proof.
  split; [|now intros eof].
  intros p. destruct (typ (scanner p)) eqn:Ht; try exact I;
    apply parseExpr_other; auto.
Qed.

(** C4 (amended): on a Semicolon parseExpr() consumes the
    semicolon and returns nil, with no error recorded: it does not go on to
    the statement that follows, which is left for the next call. *)
Theorem semicolon_is_consumed_and_nil_returned :
  forall p, typ (scanner p) = TokenSemicolon ->
  parseExpr p = (None, advance p)
  /\ perr (snd (parseExpr p)) = perr p.
Proof.
  intros p Ht. rewrite (parseExpr_Semicolon p Ht). now split.
Qed.

Lemma semicolon_is_consumed_and_nil_returned_witness :
  let p := newParser (newScanner "EOF" "; set a b;") in
  parseExpr p = (None, advance p) /\ perr (snd (parseExpr p)) = perr p.
Proof.
  intros p. apply (semicolon_is_consumed_and_nil_returned p). reflexivity.
Defined.

(** C4 (counterexample): the claim as stated fails on [; set a b;]: the
    current token is a Semicolon, the statement after it parses to
    SetExpr{"a", "b"}, and parseExpr() returns nil. *)
Lemma semicolon_recursion_counterexample :
  let p := newParser (newScanner "EOF" "; set a b;") in
  typ (scanner p) = TokenSemicolon
  /\ fst (parseExpr (advance p)) = Some (SetExpr "a" "b")
  /\ fst (parseExpr p) = None
  /\ fst (parseExpr p) <> fst (parseExpr (advance p)).
Proof. repeat split. discriminate. Qed.

(** C5: The [set] production consumes the keyword, reads the option name,
    takes the next token as the value unless that token is a Semicolon (the
    value is then empty), consumes the token that closes the statement and
    gives SetExpr{opt, val}; [set nohidden;] gives
    SetExpr{"nohidden", empty}. *)
Theorem set_production :
  (forall p o semi rest,
      typ (scanner p) = TokenIdent -> tok (scanner p) = "set" ->
      pending (scanner p) = o :: semi :: rest ->
      ttyp semi = TokenSemicolon ->
      parseExpr p = (Some (SetExpr (ttext o) EmptyString), moveTo p rest))
  /\ (forall p o v semi rest,
         typ (scanner p) = TokenIdent -> tok (scanner p) = "set" ->
         pending (scanner p) = o :: v :: semi :: rest ->
         ttyp v <> TokenSemicolon ->
         parseExpr p = (Some (SetExpr (ttext o) (ttext v)), moveTo p rest))
  /\ (forall eof,
         let r := parse (newParser (newScanner eof "set nohidden;")) in
         fst r = true /\ expr (snd r) = Some (SetExpr "nohidden" EmptyString)).
Proof.
  repeat split.
  - intros p o semi rest Ht Hk Hp Hs.
    rewrite (parseExpr_set p Ht Hk). cbv zeta.
    rewrite (advance_moveTo p), Hp, !advance_moveTo_cons.
    replace (typ (scanner (moveTo p (semi :: rest)))) with (ttyp semi)
      by reflexivity.
    rewrite Hs. reflexivity.
  - intros p o v semi rest Ht Hk Hp Hv.
    rewrite (parseExpr_set p Ht Hk). cbv zeta.
    rewrite (advance_moveTo p), Hp, !advance_moveTo_cons.
    replace (typ (scanner (moveTo p (v :: semi :: rest)))) with (ttyp v)
      by reflexivity.
    destruct (TokenType_eqb_spec (ttyp v) TokenSemicolon) as [E|_];
      [contradiction|reflexivity].
Qed.

Lemma set_production_witness :
  let p := newParser (cursor [tIdent "set"; tIdent "ratios"; tIdent "1:2:3";
                              tSemicolon; tIdent "top"] None "EOF") in
  parseExpr p = (Some (SetExpr "ratios" "1:2:3"), moveTo p [tIdent "top"]).
Proof.
  intros p.
  apply (proj1 (proj2 set_production) p (tIdent "ratios") (tIdent "1:2:3")
           tSemicolon [tIdent "top"]);
    [reflexivity|reflexivity|reflexivity|discriminate].
Defined.

(** C6: A call collects the text of every token after the command name as
    an argument, in source order, up to the Semicolon that ends it;
    [open a b c;] gives CallExpr{"open", ["a","b","c"]}. *)
Theorem call_collects_arguments_in_order :
  (forall p args semi rest,
      typ (scanner p) = TokenIdent ->
      isKeyword (tok (scanner p)) = false ->
      pending (scanner p) = (args ++ semi :: rest)%list ->
      Forall notSemicolon args -> ttyp semi = TokenSemicolon ->
      err (seek (scanner p) rest) = None ->
      parseExpr p =
        (Some (CallExpr (tok (scanner p)) (map ttext args)), moveTo p rest))
  /\ (forall eof,
         let r := parse (newParser (newScanner eof "open a b c;")) in
         fst r = true
         /\ expr (snd r) = Some (CallExpr "open" ["a"; "b"; "c"])).
Proof.
  split; [|now intros eof].
  intros p args semi rest Ht Hk Hp Hargs Hsemi Herr.
  destruct (parseExpr_call p Ht Hk) as (a & s1 & Ea & ->).
  rewrite (scanArgs_tokens semi rest Hsemi args Hargs _ [] _ Hp) in Ea.
  - inversion Ea; subst a s1. cbv zeta.
    change (advance {| scanner := seek (scanner p) (semi :: rest);
                       expr := expr p; perr := perr p |})
      with (advance (moveTo p (semi :: rest))).
    rewrite advance_moveTo_cons. simpl scanner. now rewrite Herr.
  - unfold size. rewrite Ht, Hp, length_app. simpl. lia.
Qed.

Lemma call_collects_arguments_in_order_witness :
  let p := newParser (cursor [tIdent "open"; tIdent "a"; tIdent "b";
                              tIdent "c"; tSemicolon] None "EOF") in
  parseExpr p = (Some (CallExpr "open" ["a"; "b"; "c"]), moveTo p []).
Proof.
  intros p.
  apply (proj1 call_collects_arguments_in_order p
           [tIdent "a"; tIdent "b"; tIdent "c"] tSemicolon []);
    try reflexivity.
  repeat constructor; discriminate.
Defined.

(** C7: After a call or an exec form, a lexical error recorded by the
    scanner makes parseExpr() record a parser error and return nil, never a
    CallExpr or ExecExpr; without one the node is returned.  The
    unterminated block [$ {{ echo hi] records the lexical error and parse()
    returns false. *)
Theorem lexical_error_aborts_call_and_exec :
  (forall p e,
      isCallOrExec p = true ->
      err (scanner (snd (parseExpr p))) = Some e ->
      fst (parseExpr p) = None
      /\ perr (snd (parseExpr p)) = Some ("parsing: " ++ e))
  /\ (forall p,
         isCallOrExec p = true ->
         err (scanner (snd (parseExpr p))) = None ->
         fst (parseExpr p) <> None)
  /\ (forall eof,
         let r := parse (newParser (newScanner eof "$ {{ echo hi")) in
         fst r = false
         /\ expr (snd r) = None
         /\ exists e, err (scanner (snd r)) = Some e
                      /\ perr (snd r) = Some ("parsing: " ++ e)).
Proof.
  split; [|split];
    [| |intros eof; repeat split; eexists; split; reflexivity].
  - intros p e H He.
    destruct (call_or_exec_result p H) as (node & p3 & _ & E).
    rewrite E in *. destruct (err (scanner p3)) as [e'|] eqn:E3; simpl in *.
    + rewrite E3 in He. now inversion He.
    + congruence.
  - intros p H He.
    destruct (call_or_exec_result p H) as (node & p3 & Hn & E).
    rewrite E in *. destruct (err (scanner p3)) as [e'|] eqn:E3; simpl in *.
    + congruence.
    + intros ->. now apply Hn.
Qed.

Lemma lexical_error_aborts_call_and_exec_witness :
  let p := newParser (cursor [tIdent "open"; tIdent "a"] (Some "bad") "EOF") in
  fst (parseExpr p) = None /\ perr (snd (parseExpr p)) = Some "parsing: bad".
Proof.
  intros p.
  apply (proj1 lexical_error_aborts_call_and_exec p "bad"); reflexivity.
Defined.

(** C8: Every list form that parses gives a ListExpr whose body is not
    empty and holds the nodes of the successive parseExpr() calls in
    source order; and as soon as one of these calls returns nil the whole
    list form returns nil, not a shorter ListExpr.  So
    [:{{ set hidden; set preview; }};] gives the two [set] nodes in that
    order, and [:{{ set hidden; {{ set preview; }};], where the second call
    meets a LeftBrace, gives nil. *)
Theorem list_form_body :
  (forall p, typ (scanner p) = TokenColon ->
     (forall r p', parseExpr p = (Some r, p') ->
        exists es q,
          r = ListExpr es /\ es <> []
          /\ LoopRun (listStop p) (listStart p) es q true
          /\ p' = listEnd p q)
     /\ (forall es q, LoopRun (listStop p) (listStart p) es q false ->
           parseExpr p = (None, q)))
  /\ (forall eof,
         fst (parseExpr (newParser
                (newScanner eof ":{{ set hidden; set preview; }};")))
         = Some (ListExpr [SetExpr "hidden" EmptyString;
                           SetExpr "preview" EmptyString]))
  /\ (forall eof,
         fst (parseExpr (newParser
                (newScanner eof ":{{ set hidden; {{ set preview; }};")))
         = None).
Proof.
  split; [|split; now intros eof].
  intros p Ht. split.
  - intros r p' E.
    destruct (LoopRun_total (listStop p) (listStart p)) as (es & q & b & R).
    rewrite (parseExpr_colon p Ht es q b R) in E. destruct b; [|discriminate].
    inversion E; subst. exists es, q. repeat split; try assumption.
    now apply LoopRun_nonempty with (1 := R).
  - intros es q R. now rewrite (parseExpr_colon p Ht es q false R).
Qed.

Lemma list_form_body_witness :
  let p := newParser
             (newScanner "EOF" ":{{ set hidden; set preview; }}; top;") in
  (forall r p', parseExpr p = (Some r, p') ->
     exists es q,
       r = ListExpr es /\ es <> []
       /\ LoopRun (listStop p) (listStart p) es q true
       /\ p' = listEnd p q)
  /\ (forall es q, LoopRun (listStop p) (listStart p) es q false ->
        parseExpr p = (None, q)).
Proof.
  intros p. apply (proj1 list_form_body p). reflexivity.
Defined.

(** C9: A [cmd] statement whose body is an exec form on one line gives a
    CmdExpr that holds an ExecExpr with the prefix character and the raw
    command text; [cmd usage $du -sh .|less] and a newline give
    CmdExpr{"usage", ExecExpr{"$", "du -sh .|less"}}. *)
Theorem cmd_with_line_exec :
  (forall p name pfx text nl rest,
      typ (scanner p) = TokenIdent -> tok (scanner p) = "cmd" ->
      pending (scanner p) = name :: pfx :: text :: nl :: rest ->
      ttyp pfx = TokenPrefix -> ttyp text = TokenCommand ->
      err (seek (scanner p) rest) = None ->
      parseExpr p =
        (Some (CmdExpr (ttext name)
                 (Some (ExecExpr (ttext pfx) (ttext text)))),
         moveTo p rest))
  /\ (forall eof,
         let r := parse (newParser
                           (newScanner eof
                              ("cmd usage $du -sh .|less" ++ newline))) in
         fst r = true
         /\ expr (snd r) =
            Some (CmdExpr "usage" (Some (ExecExpr "$" "du -sh .|less")))).
Proof.
  split; [|now intros eof].
  intros p name pfx text nl rest Ht Hk Hp Hpfx Htext Herr.
  rewrite (parseExpr_cmd p Ht Hk). cbv zeta.
  rewrite (advance_moveTo p), Hp, !advance_moveTo_cons.
  rewrite (parseExpr_prefix (moveTo p (pfx :: text :: nl :: rest)) Hpfx).
  cbv zeta. rewrite !advance_moveTo_cons.
  replace (typ (scanner (moveTo p (text :: nl :: rest)))) with (ttyp text)
    by reflexivity.
  rewrite Htext. simpl TokenType_eqb. cbv iota.
  rewrite !advance_moveTo_cons.
  simpl scanner. now rewrite Herr.
Qed.

Lemma cmd_with_line_exec_witness :
  let p := newParser (cursor [tIdent "cmd"; tIdent "usage"; tPrefix "$";
                              tCommand "du -sh .|less"; tNewline;
                              tIdent "top"; tSemicolon] None "EOF") in
  parseExpr p =
    (Some (CmdExpr "usage" (Some (ExecExpr "$" "du -sh .|less"))),
     moveTo p [tIdent "top"; tSemicolon]).
Proof.
  intros p.
  apply (proj1 cmd_with_line_exec p (tIdent "usage") (tPrefix "$")
           (tCommand "du -sh .|less") tNewline [tIdent "top"; tSemicolon]);
    reflexivity.
Defined.

(** C10: For every ListExpr, whichever form it was parsed from, String()
    gives the canonical brace form: the text starts with [":{{ "], carries
    each element's own text followed by ["; "], in order, and ends with
    ["}}"]; the empty ListExpr gives [":{{ }}"].  A list parsed from the
    line form, here the tokens of [:set a b] closed by a Semicolon and the
    newline marker, prints with the braces. *)
Theorem ListExpr_String_canonical :
  (forall es : list Expr,
      Expr_String (ListExpr es) = ":{{ " ++ listBody es ++ "}}")
  /\ (forall (e : Expr) (es : list Expr),
         listBody (e :: es) = Expr_String e ++ "; " ++ listBody es)
  /\ listBody [] = EmptyString
  /\ Expr_String (ListExpr []) = ":{{ }}"
  /\ (let p := newParser (cursor [tColon; tIdent "set"; tIdent "a";
                                  tIdent "b"; tSemicolon; tNewline]
                             None "EOF") in
      isBraceForm p = false
      /\ option_map Expr_String (fst (parseExpr p))
         = Some ":{{ set a b; }}").
Proof.
  destruct String_of_list as [Hstr Hcons].
  repeat split; assumption.
Qed.

(** ** Reasoning by cases on [parseExpr] *)

Lemma scanArgs_spec (n : nat) :
  forall args s r, scanArgs n args s = Some r ->
  (forall e, err s = Some e -> err (snd r) = Some e)
  /\ (err s = None -> failure s = None ->
      err (snd r) = None /\ failure (snd r) = None).
Proof.
  induction n as [|n IH]; intros args s r H; [discriminate|].
  simpl in H. destruct (scan s) as [more s1] eqn:Es.
  assert (Hs : (forall e, err s = Some e -> err s1 = Some e)
               /\ (err s = None -> failure s = None ->
                   err s1 = None /\ failure s1 = None)).
  { unfold scan in Es. destruct (pending s); inversion Es; subst; simpl.
    - split; [intros e ->; reflexivity|intros -> ->; now split].
    - split; [intros e ->; reflexivity|intros -> ->; now split]. }
  destruct Hs as [Hs1 Hs2].
  destruct (more && negb (TokenType_eqb (typ s1) TokenSemicolon)).
  - destruct (IH _ _ _ H) as [H1 H2]. split.
    + intros e He. apply H1, Hs1, He.
    + intros He Hf. destruct (Hs2 He Hf). now apply H2.
  - inversion H; subst. simpl. split; assumption.
Qed.

Section ParseExprCases.
Variable Q : Parser -> Res -> Prop.

Hypothesis Q_eof :
  forall p, typ (scanner p) = TokenEOF -> Q p (None, p).
Hypothesis Q_semicolon :
  forall p, typ (scanner p) = TokenSemicolon -> Q p (None, advance p).
Hypothesis Q_other :
  forall p,
    typ (scanner p) = TokenLBraces \/ typ (scanner p) = TokenRBraces
    \/ typ (scanner p) = TokenCommand ->
    Q p (None, p).
Hypothesis Q_set :
  forall p, typ (scanner p) = TokenIdent -> tok (scanner p) = "set" ->
  Q p (let p1 := advance p in
       let p2 := advance p1 in
       if TokenType_eqb (typ (scanner p2)) TokenSemicolon
       then (Some (SetExpr (tok (scanner p1)) EmptyString), advance p2)
       else (Some (SetExpr (tok (scanner p1)) (tok (scanner p2))),
             advance (advance p2))).
Hypothesis Q_map :
  forall p e p', typ (scanner p) = TokenIdent -> tok (scanner p) = "map" ->
  parseExpr (advance (advance p)) = (e, p') ->
  Q (advance (advance p)) (e, p') ->
  Q p (Some (MapExpr (tok (scanner (advance p))) e), p').
Hypothesis Q_cmd :
  forall p e p', typ (scanner p) = TokenIdent -> tok (scanner p) = "cmd" ->
  parseExpr (advance (advance p)) = (e, p') ->
  Q (advance (advance p)) (e, p') ->
  Q p (Some (CmdExpr (tok (scanner (advance p))) e), p').
Hypothesis Q_call :
  forall p args s1,
    typ (scanner p) = TokenIdent -> isKeyword (tok (scanner p)) = false ->
    scanArgs (size (scanner p)) [] (scanner p) = Some (args, s1) ->
    Q p (let p1 := advance {| scanner := s1; expr := expr p;
                              perr := perr p |} in
         match err (scanner p1) with
         | Some e => (None, setErr p1 e)
         | None => (Some (CallExpr (tok (scanner p)) args), p1)
         end).
Hypothesis Q_list :
  forall p es q b, typ (scanner p) = TokenColon ->
  RunAll Q (listStop p) (listStart p) es q b ->
  Q p (if b then (Some (ListExpr es), listEnd p q) else (None, q)).
Hypothesis Q_exec :
  forall p, typ (scanner p) = TokenPrefix ->
  Q p (let p1 := advance p in
       let '(text, p2) :=
         if TokenType_eqb (typ (scanner p1)) TokenLBraces
         then (tok (scanner (advance p1)), advance (advance p1))
         else if TokenType_eqb (typ (scanner p1)) TokenCommand
              then (tok (scanner p1), p1)
              else (EmptyString, p1) in
       let p3 := advance (advance p2) in
       match err (scanner p3) with
       | Some e => (None, setErr p3 e)
       | None => (Some (ExecExpr (tok (scanner p)) text), p3)
       end).

Lemma RunAll_of_LoopRun (m : nat) stop :
  (forall p, size (scanner p) <= m -> Q p (parseExpr p)) ->
  forall p es q b, LoopRun stop p es q b -> size (scanner p) <= m ->
  RunAll Q stop p es q b.
Proof.
  intros HQ. induction 1 as [p e p1 E S|p e p1 es p2 b E S R IH|p p1 E];
    intros Hm; pose proof (HQ p Hm) as Hq; rewrite E in Hq.
  - now apply all_last.
  - apply all_more with p1; try assumption. apply IH.
    pose proof (parseExpr_progress p) as [Hle _]. rewrite E in Hle.
    simpl in Hle. lia.
  - now apply all_nil.
Qed.

Lemma parseExpr_cases_below (n : nat) :
  forall p, size (scanner p) < n -> Q p (parseExpr p).
Proof.
  induction n as [|n IH]; intros p Hn; [lia|].
  destruct (typ (scanner p)) eqn:Ht.
  - rewrite (parseExpr_EOF p Ht). now apply Q_eof.
  - rewrite (parseExpr_Semicolon p Ht). now apply Q_semicolon.
  - pose proof (size_advance_lt p ltac:(rewrite Ht; discriminate)) as H1.
    pose proof (size_advance_le (advance p)) as H2.
    destruct (tok (scanner p) =? "set") eqn:Ks.
    { apply String.eqb_eq in Ks. rewrite (parseExpr_set p Ht Ks).
      now apply Q_set. }
    destruct (tok (scanner p) =? "map") eqn:Km.
    { apply String.eqb_eq in Km. rewrite (parseExpr_map p Ht Km). cbv zeta.
      destruct (parseExpr (advance (advance p))) as [e p'] eqn:E.
      apply Q_map; try assumption. rewrite <- E. apply IH. lia. }
    destruct (tok (scanner p) =? "cmd") eqn:Kc.
    { apply String.eqb_eq in Kc. rewrite (parseExpr_cmd p Ht Kc). cbv zeta.
      destruct (parseExpr (advance (advance p))) as [e p'] eqn:E.
      apply Q_cmd; try assumption. rewrite <- E. apply IH. lia. }
    assert (Hk : isKeyword (tok (scanner p)) = false)
      by (unfold isKeyword; now rewrite Ks, Km, Kc).
    destruct (parseExpr_call p Ht Hk) as (args & s1 & Ea & ->).
    now apply Q_call.
  - destruct (LoopRun_total (listStop p) (listStart p)) as (es & q & b & R).
    rewrite (parseExpr_colon p Ht es q b R). apply Q_list; [exact Ht|].
    apply RunAll_of_LoopRun with (m := size (scanner (advance p)));
      [| exact R |].
    + intros p' Hp'. apply IH.
      pose proof (size_advance_lt p ltac:(rewrite Ht; discriminate)). lia.
    + unfold listStart. destruct (isBraceForm p);
        [apply size_advance_le|lia].
  - rewrite (parseExpr_other p); [apply Q_other|]; auto.
  - rewrite (parseExpr_other p); [apply Q_other|]; auto.
  - rewrite (parseExpr_prefix p Ht). now apply Q_exec.
  - rewrite (parseExpr_other p); [apply Q_other|]; auto.
Qed.

(** Whatever holds of every production, given that it holds of the nested
    calls, holds of [parseExpr]. *)
Lemma parseExpr_cases (p : Parser) : Q p (parseExpr p).
Proof. apply (parseExpr_cases_below (S (size (scanner p)))). lia. Qed.
End ParseExprCases.

(** ** What a call of [parseExpr] leaves alone *)

Lemma Follows_refl (p : Parser) : Follows p p.
Proof. repeat split; auto. Qed.

Lemma Follows_trans (p q r : Parser) :
  Follows p q -> Follows q r -> Follows p r.
Proof.
  intros (E1 & S1 & C1 & P1) (E2 & S2 & C2 & P2).
  split; [congruence|]. split; [auto|]. split.
  - intros He Hf. destruct (C1 He Hf). auto.
  - destruct P2 as [P2|P2]; [|now right].
    destruct P1 as [P1|(e & He & P1)]; [left; congruence|].
    right. exists e. split; [auto|congruence].
Qed.

Lemma Follows_scanner (p : Parser) (s : Scanner) :
  (forall e, err (scanner p) = Some e -> err s = Some e) ->
  (err (scanner p) = None -> failure (scanner p) = None ->
   err s = None /\ failure s = None) ->
  Follows p {| scanner := s; expr := expr p; perr := perr p |}.
Proof. intros H1 H2. repeat split; auto; now apply H2. Qed.

Lemma Follows_advance (p : Parser) : Follows p (advance p).
Proof.
  apply Follows_scanner; unfold scan; destruct (pending (scanner p)); simpl.
  - now intros e ->.
  - auto.
  - now intros -> ->.
  - now intros -> ->.
Qed.

Lemma Follows_setErr (p : Parser) (e : string) :
  err (scanner p) = Some e -> Follows p (setErr p e).
Proof.
  intros He. repeat split; auto. right. now exists e.
Qed.

Lemma Follows_checked (p p1 : Parser) (node : option Expr) :
  Follows p p1 ->
  Follows p (snd (match err (scanner p1) with
                  | Some e => (None, setErr p1 e)
                  | None => (node, p1)
                  end)).
Proof.
  intros H. destruct (err (scanner p1)) eqn:E; simpl; [|exact H].
  apply Follows_trans with p1; [exact H|now apply Follows_setErr].
Qed.

Ltac follows :=
  repeat first
    [ apply Follows_refl
    | apply Follows_advance
    | eapply Follows_trans; [apply Follows_advance|] ].

Lemma parseExpr_Follows (p : Parser) : Follows p (snd (parseExpr p)).
Proof.
  apply (parseExpr_cases (fun p r => Follows p (snd r))); clear p.
  - intros p _. apply Follows_refl.
  - intros p _. apply Follows_advance.
  - intros p _. apply Follows_refl.
  - intros p _ _. cbv zeta.
    destruct (TokenType_eqb _ _); simpl; follows.
  - intros p e p' _ _ _ H. simpl in *.
    eapply Follows_trans; [apply Follows_advance|].
    eapply Follows_trans; [apply Follows_advance|exact H].
  - intros p e p' _ _ _ H. simpl in *.
    eapply Follows_trans; [apply Follows_advance|].
    eapply Follows_trans; [apply Follows_advance|exact H].
  - intros p args s1 _ _ Ea. cbv zeta. apply Follows_checked.
    destruct (scanArgs_spec _ _ _ _ Ea) as [H1 H2]. simpl in H1, H2.
    eapply Follows_trans; [apply (Follows_scanner p s1 H1 H2)|].
    apply Follows_advance.
  - intros p es q b _ R.
    assert (H : Follows (listStart p) q).
    { induction R as [p0 e p1 _ H _|p0 e p1 es p2 b _ H _ _ IH|p0 p1 _ H];
        simpl in H; [exact H| |exact H].
      now apply Follows_trans with p1. }
    assert (H0 : Follows p (listStart p))
      by (unfold listStart; destruct (isBraceForm p); follows).
    destruct b; simpl; [|now apply Follows_trans with (listStart p)].
    apply Follows_trans with (listStart p); [exact H0|].
    apply Follows_trans with q; [exact H|].
    unfold listEnd. destruct (isBraceForm p); follows.
  - intros p _. cbv zeta.
    match goal with
    | |- context [let '(_, _) := ?x in _] =>
        assert (H : Follows p (snd x));
        [|destruct x as [text p2]; simpl in H]
    end.
    { repeat case_if; simpl; follows. }
    apply Follows_checked.
    eapply Follows_trans; [exact H|]. follows.
Qed.

(** ** Further properties of the parser *)

(** X1: parseExpr() never touches p.expr, and it changes p.err in one way
    only: to the scanner's lexical error behind "parsing: ".  The parser has
    no error of its own. *)
Theorem parseExpr_error_provenance :
  forall p,
    let p' := snd (parseExpr p) in
    expr p' = expr p
    /\ (perr p' = perr p
        \/ exists e, err (scanner p') = Some e
                     /\ perr p' = Some ("parsing: " ++ e)).
Proof.
  intros p. destruct (parseExpr_Follows p) as (E & _ & _ & P). now split.
Qed.

(** X2: When the scanner holds no lexical error and will meet none,
    parseExpr() leaves p.err as it was, whatever the tokens are, and a
    statement that starts with an identifier or a prefix always gives a
    node, however short or malformed the rest is. *)
Theorem clean_scanner_never_fails :
  forall p, err (scanner p) = None -> failure (scanner p) = None ->
  perr (snd (parseExpr p)) = perr p
  /\ (typ (scanner p) = TokenIdent \/ typ (scanner p) = TokenPrefix ->
      fst (parseExpr p) <> None).
Proof.
  intros p He Hf. destruct (parseExpr_Follows p) as (_ & _ & C & P).
  destruct (C He Hf) as [He' _]. split.
  - destruct P as [P|(e & E & _)]; [exact P|congruence].
  - intros Ht.
    destruct (isCallOrExec p) eqn:Hc.
    + destruct (call_or_exec_result p Hc) as (node & p3 & Hn & E).
      rewrite E in *.
      destruct (err (scanner p3)) eqn:E3; simpl in *; [congruence|].
      intros ->. now apply Hn.
    + unfold isCallOrExec in Hc.
      destruct Ht as [Ht|Ht]; rewrite Ht in Hc; [|discriminate].
      apply negb_false_iff in Hc. unfold isKeyword in Hc.
      destruct (tok (scanner p) =? "set") eqn:Ks.
      { apply String.eqb_eq in Ks. rewrite (parseExpr_set p Ht Ks).
        cbv zeta. now destruct (TokenType_eqb _ _). }
      destruct (tok (scanner p) =? "map") eqn:Km.
      { apply String.eqb_eq in Km. rewrite (parseExpr_map p Ht Km).
        cbv zeta. destruct (parseExpr (advance (advance p))).
        simpl. discriminate. }
      destruct (tok (scanner p) =? "cmd") eqn:Kc; [|discriminate].
      apply String.eqb_eq in Kc. rewrite (parseExpr_cmd p Ht Kc).
      cbv zeta. destruct (parseExpr (advance (advance p))).
      simpl. discriminate.
Qed.

Lemma clean_scanner_never_fails_witness :
  let p := newParser (cursor [tIdent "set"] None "EOF") in
  perr (snd (parseExpr p)) = perr p
  /\ (typ (scanner p) = TokenIdent \/ typ (scanner p) = TokenPrefix ->
      fst (parseExpr p) <> None).
Proof.
  intros p. apply (clean_scanner_never_fails p); reflexivity.
Defined.

Lemma RunAll_Forall (P : Expr -> Prop) stop p es q b :
  RunAll (fun _ r => forall e, fst r = Some e -> P e) stop p es q b ->
  Forall P es.
Proof.
  induction 1 as [p e p1 _ H _|p e p1 es p2 b _ H _ _ IH|p p1 _ _];
    repeat constructor; auto.
Qed.

Lemma RunAll_nonempty Q stop p es q :
  RunAll Q stop p es q true -> es <> [].
Proof. inversion 1; discriminate. Qed.

(** X3: In every tree parseExpr() returns, at any depth, every ListExpr
    has at least one element. *)
Theorem parsed_lists_are_never_empty :
  forall p e, fst (parseExpr p) = Some e -> listsNonEmpty e = true.
Proof.
  intros p.
  apply (parseExpr_cases
           (fun _ r => forall e, fst r = Some e -> listsNonEmpty e = true));
    clear p; try (intros p Ht e E; discriminate).
  - intros p _ _ e. cbv zeta.
    destruct (TokenType_eqb _ _); simpl; intros E; now inversion E.
  - intros p e0 p' _ _ _ H e E. inversion E; subst. simpl.
    destruct e0 as [x|]; [now apply H|reflexivity].
  - intros p e0 p' _ _ _ H e E. inversion E; subst. simpl.
    destruct e0 as [x|]; [now apply H|reflexivity].
  - intros p args s1 _ _ _ e. cbv zeta.
    destruct (err _); simpl; intros E; now inversion E.
  - intros p es q b _ R e E. destruct b; [|discriminate].
    inversion E; subst.
    pose proof (RunAll_nonempty _ _ _ _ _ R) as Hne.
    pose proof (RunAll_Forall _ _ _ _ _ _ R) as Hall.
    simpl. destruct es as [|x es]; [now elim Hne|].
    apply forallb_forall. now apply Forall_forall.
  - intros p _ e. cbv zeta.
    match goal with
    | |- context [let '(_, _) := ?x in _] => destruct x as [text p2]
    end.
    destruct (err _); simpl; intros E; now inversion E.
Qed.

Lemma parsed_lists_are_never_empty_witness :
  let p := newParser
             (newScanner "EOF" "map gg :{{ set a b; :{{ top; }}; }};") in
  listsNonEmpty
    (MapExpr "gg"
       (Some (ListExpr [SetExpr "a" "b"; ListExpr [CallExpr "top" []]])))
  = true.
Proof.
  intros p. apply (parsed_lists_are_never_empty p). reflexivity.
Defined.

(** X4: The variant of the node parseExpr() returns is decided by the
    current token alone: [set], [map] and [cmd] give their own nodes and
    are never calls, any other identifier gives a call under that name, a
    Colon a list, a Prefix an exec form with that prefix; no other token
    starts a node. *)
Theorem node_variant_follows_first_token :
  forall p e, fst (parseExpr p) = Some e -> headedBy p e.
Proof.
  intros p.
  apply (parseExpr_cases
           (fun p r => forall e, fst r = Some e -> headedBy p e));
    clear p; try (intros p Ht e E; discriminate).
  - intros p Ht Hk e. cbv zeta. unfold headedBy. rewrite Ht.
    destruct (TokenType_eqb _ _); simpl; intros E; now inversion E.
  - intros p e0 p' Ht Hk _ _ e E. inversion E. unfold headedBy.
    now rewrite Ht.
  - intros p e0 p' Ht Hk _ _ e E. inversion E. unfold headedBy.
    now rewrite Ht.
  - intros p args s1 Ht Hk _ e. cbv zeta. unfold headedBy. rewrite Ht.
    destruct (err _); simpl; intros E; inversion E. now split.
  - intros p es q b Ht _ e E. destruct b; [|discriminate].
    inversion E. unfold headedBy. now rewrite Ht.
  - intros p Ht e. cbv zeta. unfold headedBy. rewrite Ht.
    match goal with
    | |- context [let '(_, _) := ?x in _] => destruct x as [text p2]
    end.
    destruct (err _); simpl; intros E; now inversion E.
Qed.

Lemma node_variant_follows_first_token_witness :
  let p := newParser (newScanner "EOF" "setx 1;") in
  headedBy p (CallExpr "setx" ["1"]).
Proof.
  intros p. apply (node_variant_follows_first_token p). reflexivity.
Defined.

(** X5: parse() never gives tokens back to the scanner, and each parse()
    that returns true has consumed at least one token: a caller that loops
    while parse() returns true ends. *)
Theorem parse_consumes_tokens :
  forall p,
    size (scanner (snd (parse p))) <= size (scanner p)
    /\ (fst (parse p) = true ->
        size (scanner (snd (parse p))) < size (scanner p)).
Proof.
  intros p. pose proof (parseExpr_progress p) as [Hle Hlt].
  unfold parse. destruct (parseExpr p) as [[e|] p']; simpl in *.
  - split; [exact Hle|]. intros _. apply Hlt. discriminate.
  - split; [exact Hle|discriminate].
Qed.

Lemma scanArgs_to_EOF (args : list Token) :
  Forall notSemicolon args ->
  forall n acc s, pending s = args -> length args < n ->
  scanArgs n acc s = Some ((acc ++ map ttext args)%list, seek s []).
Proof.
  induction 1 as [|a args Ha _ IH]; intros n acc s Hp Hn;
    (destruct n as [|n]; [simpl in Hn; lia|]); simpl scanArgs;
    rewrite (surjective_pairing (scan s)), scan_seek, Hp.
  - replace (fst (scan s)) with false by (unfold scan; now rewrite Hp).
    simpl. now rewrite app_nil_r.
  - replace (fst (scan s)) with true by (unfold scan; now rewrite Hp).
    replace (typ (seek s (a :: args))) with (ttyp a) by reflexivity.
    replace (negb (TokenType_eqb (ttyp a) TokenSemicolon)) with true
      by (unfold notSemicolon in Ha; destruct (ttyp a); simpl; congruence).
    simpl andb. cbv iota.
    erewrite IH; [|reflexivity|simpl in Hn; lia].
    rewrite seek_seek. simpl map. now rewrite <- app_assoc.
Qed.

(** X6: The brace form of an exec expression: after the Prefix and [{{],
    the text of the next token is the command, and the two tokens after it
    (the closing braces and the Semicolon of a well-formed statement) are
    skipped unread. *)
Theorem exec_brace_form :
  forall p lb text rb semi rest,
    typ (scanner p) = TokenPrefix ->
    pending (scanner p) = lb :: text :: rb :: semi :: rest ->
    ttyp lb = TokenLBraces ->
    err (seek (scanner p) rest) = None ->
    parseExpr p =
      (Some (ExecExpr (tok (scanner p)) (ttext text)), moveTo p rest).
Proof.
  intros p lb text rb semi rest Ht Hp Hlb Herr.
  rewrite (parseExpr_prefix p Ht). cbv zeta.
  rewrite (advance_moveTo p), Hp, !advance_moveTo_cons.
  replace (typ (scanner (moveTo p (lb :: text :: rb :: semi :: rest))))
    with (ttyp lb) by reflexivity.
  rewrite Hlb. simpl TokenType_eqb. cbv iota.
  rewrite !advance_moveTo_cons. simpl scanner. now rewrite Herr.
Qed.

Lemma exec_brace_form_witness :
  let p := newParser (newScanner "EOF" "!{{ make && ls }}; top;") in
  parseExpr p =
    (Some (ExecExpr "!" " make && ls "),
     moveTo p [tIdent "top"; tSemicolon]).
Proof.
  intros p.
  apply (exec_brace_form p tLBraces (tCommand " make && ls ") tRBraces
           tSemicolon [tIdent "top"; tSemicolon]); reflexivity.
Defined.

(** X7: A Prefix followed by a token that is neither [{{] nor command
    text is not refused: parseExpr() gives an ExecExpr with an empty
    command and skips that token and the one after it. *)
Theorem exec_without_command :
  forall p t1 t2 rest,
    typ (scanner p) = TokenPrefix ->
    pending (scanner p) = t1 :: t2 :: rest ->
    ttyp t1 <> TokenLBraces -> ttyp t1 <> TokenCommand ->
    err (seek (scanner p) rest) = None ->
    parseExpr p =
      (Some (ExecExpr (tok (scanner p)) EmptyString), moveTo p rest).
Proof.
  intros p t1 t2 rest Ht Hp H1 H2 Herr.
  rewrite (parseExpr_prefix p Ht). cbv zeta.
  rewrite (advance_moveTo p), Hp.
  replace (typ (scanner (moveTo p (t1 :: t2 :: rest)))) with (ttyp t1)
    by reflexivity.
  destruct (TokenType_eqb_spec (ttyp t1) TokenLBraces); [contradiction|].
  destruct (TokenType_eqb_spec (ttyp t1) TokenCommand); [contradiction|].
  rewrite !advance_moveTo_cons. simpl scanner. now rewrite Herr.
Qed.

Lemma exec_without_command_witness :
  let p := newParser (cursor [tPrefix "$"; tIdent "ls"; tSemicolon;
                              tIdent "top"; tSemicolon] None "EOF") in
  parseExpr p =
    (Some (ExecExpr "$" EmptyString), moveTo p [tIdent "top"; tSemicolon]).
Proof.
  intros p.
  apply (exec_without_command p (tIdent "ls") tSemicolon
           [tIdent "top"; tSemicolon]);
    try reflexivity; discriminate.
Defined.

(** X8: A [map] statement whose body is a call: the key sequence is the
    text of the token after [map], whatever its category, and the body is
    the call with its arguments in order. *)
Theorem map_with_call :
  forall p keys name args semi rest,
    typ (scanner p) = TokenIdent -> tok (scanner p) = "map" ->
    pending (scanner p) = (keys :: name :: args ++ semi :: rest)%list ->
    ttyp name = TokenIdent -> isKeyword (ttext name) = false ->
    Forall notSemicolon args -> ttyp semi = TokenSemicolon ->
    err (seek (scanner p) rest) = None ->
    parseExpr p =
      (Some (MapExpr (ttext keys)
               (Some (CallExpr (ttext name) (map ttext args)))),
       moveTo p rest).
Proof.
  intros p keys name args semi rest Ht Hk Hp Hname Hkw Hargs Hsemi Herr.
  rewrite (parseExpr_map p Ht Hk). cbv zeta.
  rewrite (advance_moveTo p), Hp, !advance_moveTo_cons.
  rewrite (parseExpr_call_tokens
             (moveTo p (name :: args ++ semi :: rest)) args semi rest);
    try assumption; reflexivity.
Qed.

Lemma map_with_call_witness :
  let p := newParser (newScanner "EOF" "map gg top;") in
  parseExpr p = (Some (MapExpr "gg" (Some (CallExpr "top" []))), moveTo p []).
Proof.
  intros p.
  apply (map_with_call p (tIdent "gg") (tIdent "top") [] tSemicolon []);
    try reflexivity. constructor.
Defined.

(** X9: A call that no Semicolon ends is not refused: it takes the text of
    every token up to the end of input as an argument. *)
Theorem call_without_semicolon :
  forall p,
    typ (scanner p) = TokenIdent ->
    isKeyword (tok (scanner p)) = false ->
    Forall notSemicolon (pending (scanner p)) ->
    err (seek (scanner p) []) = None ->
    parseExpr p =
      (Some (CallExpr (tok (scanner p)) (map ttext (pending (scanner p)))),
       moveTo p []).
Proof.
  intros p Ht Hk Hargs Herr.
  destruct (parseExpr_call p Ht Hk) as (a & s1 & Ea & ->).
  rewrite (scanArgs_to_EOF _ Hargs _ [] _ eq_refl) in Ea.
  - inversion Ea; subst a s1. cbv zeta.
    change (advance {| scanner := seek (scanner p) [];
                       expr := expr p; perr := perr p |})
      with (advance (moveTo p [])).
    rewrite advance_moveTo_nil. simpl scanner. now rewrite Herr.
  - unfold size. rewrite Ht. lia.
Qed.

Lemma call_without_semicolon_witness :
  let p := newParser (newScanner "EOF" "open a b") in
  parseExpr p = (Some (CallExpr "open" ["a"; "b"]), moveTo p []).
Proof.
  intros p. apply (call_without_semicolon p); try reflexivity.
  repeat constructor; discriminate.
Defined.

Lemma emits_nil_l r : emits [] r = r.
Proof. now destruct r. Qed.

Lemma lex_listBody (es : list Expr) :
  Forall (fun e => reparsable e = true) es ->
  forall k,
    lex Normal (listBody es ++ k)
    = emits (flat_map (fun x => toks x ++ [tSemicolon])%list es)
            (lex Normal k).
Proof.
  induction 1 as [|e es He _ IH]; intros k.
  - simpl. now rewrite emits_nil_l.
  - rewrite listBody_cons_k. simpl flat_map.
    rewrite <- app_assoc, emits_app.
    rewrite (lex_Expr_String e He) by reflexivity.
    simpl app. rewrite emits_cons.
    change (lex Normal (String ";" (String " " (listBody es ++ k))))
      with (emit tSemicolon (lex Normal (listBody es ++ k))).
    now rewrite IH.
Qed.

Lemma parseExpr_statements (es : list Expr) (p : Parser) :
  Forall (fun e => reparsable e = true) es ->
  LoopRun (fun _ => false)
    (moveTo p (flat_map (fun x => toks x ++ [tSemicolon])%list es))
    es (moveTo p []) false.
Proof.
  induction 1 as [|e es He _ IH].
  - apply run_nil. now apply parseExpr_EOF.
  - simpl flat_map. rewrite <- app_assoc. simpl app.
    apply run_more with (2 := eq_refl) (3 := IH).
    now rewrite (parseExpr_toks e He).
Qed.

(** X10: A text made of the String() texts of reparsable expressions, each
    followed by "; ", is read back one expression per call of
    parseExpr(), in the order written; the call after the last one returns
    nil at the end of input, and no error is recorded. *)
Theorem statements_parse_back_in_order :
  forall es eof, forallb reparsable es = true ->
  exists q,
    LoopRun (fun _ => false)
      (newParser (newScanner eof (listBody es))) es q false
    /\ typ (scanner q) = TokenEOF
    /\ perr q = None.
Proof.
  intros es eof Hes.
  assert (Hall : Forall (fun e => reparsable e = true) es)
    by (apply Forall_forall; now apply forallb_forall).
  pose proof (lex_listBody es Hall EmptyString) as L.
  rewrite append_nil_r in L. unfold emits in L. simpl in L.
  rewrite app_nil_r in L.
  unfold newScanner. rewrite L.
  set (p0 := {| scanner := cursor [] None eof; expr := None; perr := None |}).
  exists (moveTo p0 []). split; [|now split].
  apply (parseExpr_statements es p0 Hall).
Qed.

Lemma statements_parse_back_in_order_witness :
  exists q,
    LoopRun (fun _ => false)
      (newParser (newScanner "EOF" "set hidden on; map gg set ratios 1:2; "))
      [SetExpr "hidden" "on"; MapExpr "gg" (Some (SetExpr "ratios" "1:2"))]
      q false
    /\ typ (scanner q) = TokenEOF
    /\ perr q = None.
Proof.
  apply (statements_parse_back_in_order
           [SetExpr "hidden" "on";
            MapExpr "gg" (Some (SetExpr "ratios" "1:2"))] "EOF").
  reflexivity.
Defined.

Lemma parseExpr_String (e : Expr) (eof : string) :
  reparsable e = true ->
  fst (parseExpr (newParser (newScanner eof (Expr_String e)))) = Some e.
Proof.
  intros Hr.
  pose proof (lex_Expr_String e Hr EmptyString eq_refl) as L.
  rewrite append_nil_r in L. unfold emits in L. simpl in L.
  rewrite app_nil_r in L.
  unfold newScanner. rewrite L.
  set (p0 := {| scanner := cursor [] None eof; expr := None; perr := None |}).
  change (newParser (cursor (toks e) None eof)) with (moveTo p0 (toks e)).
  pose proof (parseExpr_toks e Hr p0 []) as P. rewrite app_nil_r in P.
  now rewrite P.
Qed.

(** X11: On reparsable expressions String() gives different texts for
    different expressions. *)
Theorem String_separates_reparsable :
  forall e1 e2,
    reparsable e1 = true -> reparsable e2 = true -> e1 <> e2 ->
    Expr_String e1 <> Expr_String e2.
Proof.
  intros e1 e2 H1 H2 Hne E. apply Hne.
  pose proof (parseExpr_String e1 EmptyString H1) as P1.
  pose proof (parseExpr_String e2 EmptyString H2) as P2.
  rewrite E in P1. congruence.
Qed.

Lemma String_separates_reparsable_witness :
  Expr_String (ListExpr [SetExpr "a" "b"; SetExpr "c" "d"])
  <> Expr_String (ListExpr [SetExpr "a" "b"; ListExpr [SetExpr "c" "d"]]).
Proof.
  apply String_separates_reparsable; try reflexivity. discriminate.
Defined.

(** ** The helpers: [extractNums], [min], [max] *)

Section ExtractNumsFacts.
Import Util.
Variable Nd : rune -> bool.
Local Open Scope list_scope.
Local Open Scope Z_scope.

Lemma body_inner n a i c : i <> n - 1 -> body Nd n a i c = inner Nd a c.
Proof.
  intros H. unfold body, inner.
  destruct (Z.eqb_spec i (n - 1)); [contradiction|].
  destruct (Bool.eqb (IsDigit Nd c) (digit a)); reflexivity.
Qed.

Lemma len_cons x s : len (x :: s) = Zpos (snd x) + len s.
Proof. reflexivity. Qed.

Lemma len_app s1 s2 : len (s1 ++ s2) = len s1 + len s2.
Proof.
  induction s1 as [|x s1 IH]; [reflexivity|].
  simpl app. rewrite !len_cons, IH. lia.
Qed.

Lemma len_nonneg s : 0 <= len s.
Proof.
  induction s as [|x s IH]; [reflexivity|]. rewrite len_cons. lia.
Qed.

Lemma rangeLoop_inner n (s : GoString) :
  forall i a, i + len s < n ->
  rangeLoop Nd n i s a = fold_left (inner Nd) (map fst s) a.
Proof.
  induction s as [|[c w] s IH]; intros i a H; [reflexivity|].
  rewrite len_cons in H. cbn [snd] in H. pose proof (len_nonneg s).
  cbn [rangeLoop map fst fold_left]. rewrite body_inner by lia.
  apply IH. lia.
Qed.

Lemma rangeLoop_app n s1 s2 :
  forall i a,
    rangeLoop Nd n i (s1 ++ s2) a
    = rangeLoop Nd n (i + len s1) s2 (rangeLoop Nd n i s1 a).
Proof.
  induction s1 as [|[c w] s1 IH]; intros i a.
  - simpl. f_equal. unfold len. simpl. lia.
  - cbn [app rangeLoop]. rewrite IH, len_cons. cbn [snd].
    f_equal. lia.
Qed.

Lemma eqb_flip (a b : bool) : Bool.eqb a b = Bool.eqb b a.
Proof. now destruct a, b. Qed.

Lemma runs_snoc (P : list rune) (c : rune) :
  runs Nd (P ++ [c]) = snocRun Nd (runs Nd P) c.
Proof.
  induction P as [|a P IH]; [reflexivity|].
  simpl app. simpl runs. rewrite IH.
  destruct (runs Nd P) as [|[b r] [|y O]].
  - simpl. rewrite (eqb_flip (IsDigit Nd c)).
    destruct (Bool.eqb (IsDigit Nd a) (IsDigit Nd c)) eqn:E;
      [|reflexivity].
    apply eqb_prop in E. now rewrite E.
  - simpl. destruct (Bool.eqb (IsDigit Nd c) b) eqn:E1;
      destruct (Bool.eqb (IsDigit Nd a) b) eqn:E2; simpl; rewrite ?E1;
      reflexivity.
  - change (snocRun Nd ((b, r) :: y :: O) c)
      with ((b, r) :: snocRun Nd (y :: O) c).
    cbv iota beta. destruct (Bool.eqb (IsDigit Nd a) b); reflexivity.
Qed.

Lemma snocRun_last (O : list (bool * list rune)) b r c :
  snocRun Nd (O ++ [(b, r)]) c
  = if Bool.eqb (IsDigit Nd c) b then O ++ [(b, r ++ [c])]
    else O ++ [(b, r); (IsDigit Nd c, [c])].
Proof.
  induction O as [|x O IH]; [reflexivity|].
  simpl app. destruct (O ++ [(b, r)]) as [|y O'] eqn:E.
  - now destruct O.
  - change (snocRun Nd (x :: y :: O') c) with (x :: snocRun Nd (y :: O') c).
    rewrite IH. now destruct (Bool.eqb (IsDigit Nd c) b).
Qed.

Lemma numsOf_app O O' : numsOf (O ++ O') = numsOf O ++ numsOf O'.
Proof. unfold numsOf. now rewrite filter_app, map_app. Qed.

Lemma restOf_app O O' : restOf (O ++ O') = restOf O ++ restOf O'.
Proof. unfold restOf. now rewrite filter_app, map_app. Qed.

Lemma Held_inner P a c : Held Nd P a -> Held Nd (P ++ [c]) (inner Nd a c).
Proof.
  intros (O & R & N & T).
  pose proof (runs_snoc P c) as S. rewrite R, snocRun_last in S.
  unfold Held, inner.
  destruct (Bool.eqb (IsDigit Nd c) (digit a)) eqn:E.
  - exists O. now repeat split.
  - exists (O ++ [(digit a, buf a)]). cbn [buf digit nums rest].
    assert (Hd : IsDigit Nd c = negb (digit a))
      by (destruct (IsDigit Nd c), (digit a); simpl in *; congruence).
    rewrite numsOf_app, restOf_app, N, T, S, Hd, <- app_assoc.
    unfold numsOf, restOf. simpl.
    destruct (digit a); simpl; rewrite ?app_nil_r; now repeat split.
Qed.

Lemma Held_fold cs : forall P a,
  Held Nd P a -> Held Nd (P ++ cs) (fold_left (inner Nd) cs a).
Proof.
  induction cs as [|c cs IH]; intros P a H.
  - now rewrite app_nil_r.
  - simpl. replace (P ++ c :: cs) with ((P ++ [c]) ++ cs)
      by (now rewrite <- app_assoc).
    apply IH. now apply Held_inner.
Qed.

Lemma Held_first c :
  Held Nd [c] (inner Nd {| buf := []; digit := IsDigit Nd c;
                     nums := []; rest := [] |} c).
Proof.
  unfold inner. simpl. rewrite eqb_reflx. exists []. now repeat split.
Qed.

Lemma snocRun_class (O : list (bool * list rune)) c :
  exists O' r, snocRun Nd O c = O' ++ [(IsDigit Nd c, r)].
Proof.
  induction O as [|x O IH].
  - now exists [], [c].
  - destruct O as [|y O].
    + simpl. destruct (Bool.eqb (IsDigit Nd c) (fst x)) eqn:E.
      * apply eqb_prop in E. rewrite <- E. now exists [], (snd x ++ [c]).
      * now exists [x], [c].
    + destruct IH as (O' & r & E).
      change (snocRun Nd (x :: y :: O) c) with (x :: snocRun Nd (y :: O) c).
      rewrite E. now exists (x :: O'), r.
Qed.

Lemma runs_last_class P c O d b :
  runs Nd (P ++ [c]) = O ++ [(d, b)] -> d = IsDigit Nd c.
Proof.
  rewrite runs_snoc. destruct (snocRun_class (runs Nd P) c) as (O' & r & ->).
  intros E. apply app_inj_tail in E as [_ E]. congruence.
Qed.

Lemma snoc_cases {A} (l : list A) : l = [] \/ exists l' x, l = l' ++ [x].
Proof.
  destruct l as [|a l] using rev_ind; [now left|right]. now exists l, a.
Qed.

Lemma lastKept_one c w : lastKept Nd [(c, w)] = (w =? 1)%positive.
Proof. unfold lastKept. simpl. now rewrite andb_true_r. Qed.

Lemma lastKept_two l c' w' c w :
  lastKept Nd (l ++ [(c', w')] ++ [(c, w)])
  = (w =? 1)%positive && Bool.eqb (IsDigit Nd c) (IsDigit Nd c').
Proof.
  unfold lastKept. rewrite app_assoc, !rev_unit. reflexivity.
Qed.

Lemma Held_prefix (s : GoString) (n : Z) :
  s <> [] -> len s < n ->
  Held Nd (map fst s) (rangeLoop Nd n 0 s (start Nd s)).
Proof.
  intros Hs Hn. rewrite rangeLoop_inner by lia.
  destruct s as [|[c0 w0] s]; [now elim Hs|].
  cbn [map fst fold_left]. apply (Held_fold (map fst s) [c0]).
  apply Held_first.
Qed.

Lemma extractNums_kept (s : GoString) :
  extractNums Nd s
  = (numsOf (kept Nd s), restOf (kept Nd s), IsDigit Nd (DecodeRuneInString s)).
Proof.
  destruct (snoc_cases s) as [->|(init & [c w] & ->)]; [reflexivity|].
  unfold extractNums. fold (DecodeRuneInString (init ++ [(c, w)])).
  fold (start Nd (init ++ [(c, w)])).
  rewrite rangeLoop_app, len_app. cbn [rangeLoop].
  change (len [(c, w)]) with (Z.pos w + 0).
  destruct (snoc_cases init) as [->|(init' & [c' w'] & ->)].
  - cbn [app rangeLoop len fold_right DecodeRuneInString start].
    unfold body, kept. rewrite lastKept_one. cbn [digit buf nums rest].
    rewrite eqb_reflx. cbn [andb app map fst runs].
    replace (0 + 0 =? 0 + (Z.pos w + 0) - 1) with (w =? 1)%positive
      by (destruct (Pos.eqb_spec w 1), (Z.eqb_spec (0 + 0)
            (0 + (Z.pos w + 0) - 1)); try reflexivity; lia).
    destruct (w =? 1)%positive; cbn [negb]; [|reflexivity].
    unfold numsOf, restOf. cbn [negb]. simpl.
    now destruct (IsDigit Nd c).
  - set (init := init' ++ [(c', w')]).
    assert (Hs : start Nd (init ++ [(c, w)]) = start Nd init)
      by (unfold start, DecodeRuneInString, init; now destruct init').
    rewrite Hs.
    destruct (Held_prefix init (len init + (Z.pos w + 0)))
      as (O & R & N & T); [unfold init; now destruct init'|lia|].
    set (a := rangeLoop Nd (len init + (Z.pos w + 0)) 0 init (start Nd init))
      in *.
    assert (Hd : digit a = IsDigit Nd c').
    { unfold init in R. rewrite map_app in R.
      now apply runs_last_class in R. }
    assert (Hruns : runs Nd (map fst (init ++ [(c, w)]))
                    = if Bool.eqb (IsDigit Nd c) (digit a)
                      then O ++ [(digit a, buf a ++ [c])]
                      else O ++ [(digit a, buf a); (IsDigit Nd c, [c])]).
    { rewrite map_app. cbn [map fst]. now rewrite runs_snoc, R, snocRun_last. }
    assert (Hk : lastKept Nd (init ++ [(c, w)])
                 = (w =? 1)%positive
                   && Bool.eqb (IsDigit Nd c) (digit a))
      by (unfold init; now rewrite <- app_assoc, lastKept_two, Hd).
    unfold kept. rewrite Hruns, Hk.
    unfold body.
    replace (0 + len init =? len init + (Z.pos w + 0) - 1)
      with (w =? 1)%positive
      by (destruct (Pos.eqb_spec w 1), (Z.eqb_spec (0 + len init)
            (len init + (Z.pos w + 0) - 1)); try reflexivity; lia).
    destruct (Bool.eqb (IsDigit Nd c) (digit a)) eqn:E.
    + destruct (w =? 1)%positive; cbn [andb negb nums rest].
      * rewrite numsOf_app, restOf_app, N, T. unfold numsOf, restOf.
        simpl. destruct (digit a); simpl; now rewrite ?app_nil_r.
      * now rewrite removelast_last, N, T.
    + rewrite andb_false_r. cbn [andb nums rest].
      replace (O ++ [(digit a, buf a); (IsDigit Nd c, [c])])
        with ((O ++ [(digit a, buf a)]) ++ [(IsDigit Nd c, [c])])
        by (now rewrite <- app_assoc).
      rewrite removelast_last, numsOf_app, restOf_app, N, T.
      unfold numsOf, restOf. simpl.
      destruct (digit a); simpl; now rewrite ?app_nil_r.
Qed.

Lemma concat_restOf_runs (l : list rune) :
  concat (restOf (runs Nd l)) = filter (nondigit Nd) l.
Proof.
  induction l as [|c l IH]; [reflexivity|].
  cbn [runs filter]. unfold nondigit at 1.
  destruct (runs Nd l) as [|[b r] t].
  - rewrite <- IH. unfold restOf. simpl.
    now destruct (IsDigit Nd c).
  - rewrite <- IH.
    destruct (Bool.eqb (IsDigit Nd c) b) eqn:E.
    + apply eqb_prop in E. rewrite E. unfold restOf. simpl.
      now destruct b.
    + unfold restOf. simpl. now destruct (IsDigit Nd c), b.
Qed.

Lemma runs_one_class (b : bool) (l : list rune) :
  l <> [] -> Forall (fun c => IsDigit Nd c = b) l -> runs Nd l = [(b, l)].
Proof.
  intros Hl H. induction H as [|c l Hc H IH]; [now elim Hl|].
  cbn [runs]. destruct l as [|c' l].
  - simpl. now rewrite Hc.
  - rewrite IH by discriminate. now rewrite Hc, eqb_reflx.
Qed.

Lemma body_counts (d0 : bool) n a i c :
  let K a :=
    if Bool.eqb (digit a) d0 then length (nums a) = length (rest a)
    else if d0 then length (nums a) = S (length (rest a))
         else length (rest a) = S (length (nums a)) in
  K a -> K (body Nd n a i c).
Proof.
  intros K. unfold K, body.
  destruct (Bool.eqb (IsDigit Nd c) (digit a) && negb (i =? n - 1));
    [trivial|].
  cbn [digit nums rest].
  destruct (digit a), d0; simpl; rewrite ?length_app; simpl; lia.
Qed.

Lemma rangeLoop_counts (d0 : bool) n s :
  let K a :=
    if Bool.eqb (digit a) d0 then length (nums a) = length (rest a)
    else if d0 then length (nums a) = S (length (rest a))
         else length (rest a) = S (length (nums a)) in
  forall i a, K a -> K (rangeLoop Nd n i s a).
Proof.
  intros K. induction s as [|[c w] s IH]; intros i a H; [exact H|].
  cbn [rangeLoop]. apply IH. now apply body_counts.
Qed.
End ExtractNumsFacts.

Lemma removelast_split {A} (X : list A) :
  exists t, X = (removelast X ++ t)%list.
Proof.
  destruct X as [|x X]; [now exists []|].
  exists [last (x :: X) x]. apply app_removelast_last. discriminate.
Qed.

Section NumsProperties.
Import Util.
Local Open Scope list_scope.
Local Open Scope Z_scope.

(** X12: extractNums() delivers the maximal runs of digits and of other
    runes, in order: the numbers of the runs of digits in nums, the runs
    of other runes in rest, numFirst being the class of the first rune.
    The last run is delivered only when the last rune takes one byte and
    is of the class of the rune before it (or is alone).  On
    [foo123bar456] this gives 123 and 456, [foo] and [bar], and false. *)
Theorem extractNums_partitions :
  (forall Nd s,
      extractNums Nd s
      = (numsOf (kept Nd s), restOf (kept Nd s),
         IsDigit Nd (DecodeRuneInString s)))
  /\ (forall Nd,
         extractNums Nd (ofAscii "foo123bar456")
         = ([123; 456],
            [map fst (ofAscii "foo"); map fst (ofAscii "bar")], false)).
Proof. split; [apply extractNums_kept|reflexivity]. Qed.

(** X13: When the last rune is of another class than the rune before it,
    extractNums() leaves it out: the result is made of the runs of the
    string without its last rune, so that [file1] and [file2] give the same
    result as [file]. *)
Theorem extractNums_drops_last_rune_of_new_class :
  forall Nd init c' w' c w,
    IsDigit Nd c <> IsDigit Nd c' ->
    let s := init ++ [(c', w')] in
    extractNums Nd (s ++ [(c, w)])
    = (numsOf (runs Nd (map fst s)), restOf (runs Nd (map fst s)),
       IsDigit Nd (DecodeRuneInString s)).
Proof.
  intros Nd init c' w' c w Hc s. rewrite extractNums_kept.
  assert (Hf : DecodeRuneInString (s ++ [(c, w)]) = DecodeRuneInString s)
    by (unfold s; now destruct init).
  assert (Hb : Bool.eqb (IsDigit Nd c) (IsDigit Nd c') = false)
    by (destruct (IsDigit Nd c), (IsDigit Nd c'); simpl; congruence).
  rewrite Hf. unfold kept, s.
  rewrite <- app_assoc, lastKept_two, Hb, andb_false_r.
  rewrite app_assoc, map_app. cbn [map fst].
  rewrite runs_snoc, map_app. cbn [map fst].
  destruct (snocRun_class Nd (runs Nd (map fst init)) c') as (O & r & E).
  rewrite <- runs_snoc in E. rewrite E, snocRun_last, Hb.
  replace (O ++ [(IsDigit Nd c', r); (IsDigit Nd c, [c])])
    with ((O ++ [(IsDigit Nd c', r)]) ++ [(IsDigit Nd c, [c])])
    by (now rewrite <- app_assoc).
  now rewrite removelast_last.
Qed.

Lemma extractNums_drops_last_rune_of_new_class_witness :
  let Nd := fun _ : rune => false in
  let s := ofAscii "file" in
  extractNums Nd (s ++ [(49, 1%positive)])
  = (numsOf (runs Nd (map fst s)), restOf (runs Nd (map fst s)),
     IsDigit Nd (DecodeRuneInString s)).
Proof.
  intros Nd s.
  apply (extractNums_drops_last_rune_of_new_class Nd (ofAscii "fil")
           101 1%positive 49 1%positive).
  discriminate.
Defined.

(** X14: When all runes are of one class and the last one takes more
    than one byte, extractNums() delivers nothing: nums and rest are both
    empty. *)
Theorem extractNums_loses_run_ending_in_wide_rune :
  forall Nd init c w b,
    Forall (fun x => IsDigit Nd (fst x) = b) (init ++ [(c, w)]) ->
    w <> 1%positive ->
    extractNums Nd (init ++ [(c, w)]) = ([], [], b).
Proof.
  intros Nd init c w b Hall Hw. rewrite extractNums_kept.
  assert (Hruns : runs Nd (map fst (init ++ [(c, w)]))
                  = [(b, map fst (init ++ [(c, w)]))]).
  { apply runs_one_class; [now destruct init|].
    apply Forall_map. exact Hall. }
  assert (Hk : lastKept Nd (init ++ [(c, w)]) = false).
  { unfold lastKept. rewrite rev_unit.
    destruct (Pos.eqb_spec w 1); [contradiction|reflexivity]. }
  assert (Hf : IsDigit Nd (DecodeRuneInString (init ++ [(c, w)])) = b).
  { destruct init as [|[c0 w0] init]; inversion Hall; assumption. }
  unfold kept. now rewrite Hk, Hruns, Hf.
Qed.

Lemma extractNums_loses_run_ending_in_wide_rune_witness :
  extractNums (fun _ => false)
    (ofAscii "caf" ++ [(233, 2%positive)]) = ([], [], false).
Proof.
  apply (extractNums_loses_run_ending_in_wide_rune (fun _ => false)
           (ofAscii "caf") 233 2%positive false).
  - repeat constructor.
  - discriminate.
Defined.

(** X15: On a non-empty string of ASCII digits extractNums() gives one
    number and no rest: the decimal value of the string, or the largest
    int when the value does not fit. *)
Theorem extractNums_of_decimal_digits :
  forall Nd s,
    s <> [] ->
    Forall (fun x => isDecimal (fst x) = true /\ snd x = 1%positive) s ->
    extractNums Nd s = ([Z.min (decimal (map fst s)) maxInt], [], true).
Proof.
  intros Nd s Hs Hall. rewrite extractNums_kept.
  assert (Hd : forall c : rune, isDecimal c = true -> IsDigit Nd c = true).
  { intros x H. unfold IsDigit. destruct (Z.leb_spec x 255); [exact H|].
    unfold isDecimal in H.
    apply andb_true_iff in H as [_ H]. apply Z.leb_le in H. lia. }
  assert (Hruns : runs Nd (map fst s) = [(true, map fst s)]).
  { apply runs_one_class; [now destruct s|].
    apply Forall_map. eapply Forall_impl; [|exact Hall].
    intros x [H _]. now apply Hd. }
  assert (Hk : lastKept Nd s = true).
  { destruct (snoc_cases s) as [->|(init & [c w] & ->)]; [now elim Hs|].
    apply Forall_app in Hall as [Hi Hl]. inversion Hl as [|? ? [Hc Hw] _].
    simpl in Hc, Hw. subst w.
    destruct (snoc_cases init) as [->|(init' & [c' w'] & ->)].
    - reflexivity.
    - apply Forall_app in Hi as [_ Hi]. inversion Hi as [|? ? [Hc' _] _].
      rewrite <- app_assoc, lastKept_two.
      rewrite (Hd c Hc), (Hd c' Hc'). reflexivity. }
  assert (Hf : IsDigit Nd (DecodeRuneInString s) = true).
  { destruct s as [|[c0 w0] s]; [now elim Hs|].
    inversion Hall as [|? ? [H0 _] _]. now apply Hd. }
  assert (Ha : Atoi (map fst s) = Z.min (decimal (map fst s)) maxInt).
  { unfold Atoi. replace (forallb isDecimal (map fst s)) with true;
      [reflexivity|].
    symmetry. apply forallb_forall. intros c Hc.
    apply in_map_iff in Hc as (x & <- & Hx).
    rewrite Forall_forall in Hall. now apply Hall. }
  unfold kept. rewrite Hk, Hruns, Hf. unfold numsOf, restOf. simpl.
  now rewrite Ha.
Qed.

Lemma extractNums_of_decimal_digits_witness :
  extractNums (fun _ => false) (ofAscii "18446744073709551616")
  = ([9223372036854775807], [], true).
Proof.
  apply (extractNums_of_decimal_digits (fun _ => false)
           (ofAscii "18446744073709551616")).
  - discriminate.
  - repeat constructor.
Defined.

(** X16: The partitions alternate: when numFirst is true nums has as
    many elements as rest or one more, when it is false rest has as many
    as nums or one more. *)
Theorem extractNums_partitions_alternate :
  forall Nd s,
    let '(nums, rest, numFirst) := extractNums Nd s in
    if numFirst
    then (length rest <= length nums <= S (length rest))%nat
    else (length nums <= length rest <= S (length nums))%nat.
Proof.
  intros Nd s. unfold extractNums.
  set (d0 := IsDigit Nd (DecodeRuneInString s)).
  pose proof (rangeLoop_counts Nd d0 (len s) s 0
                {| buf := []; digit := d0; nums := []; rest := [] |}) as H.
  cbv zeta in H. cbn [digit nums rest length] in H.
  rewrite eqb_reflx in H. specialize (H eq_refl).
  destruct (Bool.eqb (digit _) d0), d0; lia.
Qed.

(** X17: The elements of rest hold no digit, and put end to end they are
    the runes of the string that are no digits, in order: all of them when
    the last partition is delivered, all but an end otherwise. *)
Theorem extractNums_rest_is_the_nondigits :
  forall Nd s,
    exists tail,
      filter (nondigit Nd) (map fst s)
      = concat (snd (fst (extractNums Nd s))) ++ tail
      /\ (lastKept Nd s = true -> tail = [])
      /\ Forall (fun c => IsDigit Nd c = false)
                (concat (snd (fst (extractNums Nd s)))).
Proof.
  intros Nd s. rewrite extractNums_kept. cbn [fst snd].
  assert (E : exists tail,
             filter (nondigit Nd) (map fst s)
             = concat (restOf (kept Nd s)) ++ tail
             /\ (lastKept Nd s = true -> tail = [])).
  { rewrite <- concat_restOf_runs. unfold kept.
    destruct (lastKept Nd s).
    - exists []. now rewrite app_nil_r.
    - destruct (removelast_split (runs Nd (map fst s))) as (t & R).
      exists (concat (restOf t)). split; [|discriminate].
      now rewrite <- concat_app, <- restOf_app, <- R. }
  destruct E as (tail & E & Ht). exists tail. repeat split; try assumption.
  assert (F : Forall (fun c => IsDigit Nd c = false)
                (filter (nondigit Nd) (map fst s))).
  { apply Forall_forall. intros c Hc. apply filter_In in Hc as [_ Hc].
    unfold nondigit in Hc. now apply negb_true_iff in Hc. }
  rewrite E in F. now apply Forall_app in F as [F _].
Qed.

(** X18: min() and max() return the two arguments, the smaller one from
    min() and the larger one from max(). *)
Theorem min_and_max_return_both_arguments :
  forall a b,
    Util.min a b <= Util.max a b
    /\ ((Util.min a b = a /\ Util.max a b = b)
        \/ (Util.min a b = b /\ Util.max a b = a)).
Proof.
  intros a b. unfold Util.min, Util.max.
  destruct (Z.ltb_spec a b), (Z.gtb_spec a b); lia.
Qed.
End NumsProperties.
